(** * NEODatabase: linking, catalogue indexes and query

    A shallow embedding of [src/database.py].  The constructor mutates the
    objects it is handed (each NEO gains its list of close approaches, each
    matched close approach gains a reference to its NEO), so objects live in
    a store and the collections hold references into it. *)

From Stdlib Require Import Ascii String Floats.
From stdpp Require Import gmap strings list fin_maps.

Open Scope string_scope.
Open Scope list_scope.

(** ** Python strings: [str.lower] and [str.upper]

    A string is a sequence of characters with code points below U+0100, one
    [ascii] per character: ASCII text and its Latin-1 extension.  On such
    text both methods work character by character.

    [str.lower] moves 'A'..'Z' and U+00C0..U+00DE, U+00D7 apart, up by 32
    and leaves every other character alone.

    [str.upper] moves 'a'..'z' and U+00E0..U+00FE, U+00F7 apart, down by 32,
    turns U+00DF (sharp s) into the two characters "SS", and leaves the
    other characters alone, but for U+00B5 and U+00FF: their upper-case
    forms, U+039C and U+0178, lie beyond U+00FF, so the upper-casing of a
    string that holds one of them is not a string of this kind. *)

Definition lower_char (c : ascii) : ascii :=
  let n := nat_of_ascii c in
  if (65 <=? n)%nat && (n <=? 90)%nat
     || (192 <=? n)%nat && (n <=? 222)%nat && negb (n =? 215)%nat
  then ascii_of_nat (n + 32) else c.

Definition upper_char (c : ascii) : option string :=
  let n := nat_of_ascii c in
  if (97 <=? n)%nat && (n <=? 122)%nat
     || (224 <=? n)%nat && (n <=? 254)%nat && negb (n =? 247)%nat
  then Some (String (ascii_of_nat (n - 32)) EmptyString)
  else if (n =? 223)%nat then Some "SS"
  else if (n =? 181)%nat || (n =? 255)%nat then None
  else Some (String c EmptyString).

Fixpoint lower (s : string) : string :=
  match s with
  | EmptyString => EmptyString
  | String c s' => String (lower_char c) (lower s')
  end.

(** [s.upper()], or [None] when it leaves the strings modelled here. *)
Fixpoint upper (s : string) : option string :=
  match s with
  | EmptyString => Some EmptyString
  | String c s' =>
      match upper_char c, upper s' with
      | Some u, Some r => Some (String.append u r)
      | _, _ => None
      end
  end.

(** [s.isascii()] *)
Fixpoint isascii (s : string) : bool :=
  match s with
  | EmptyString => true
  | String c s' => (nat_of_ascii c <? 128)%nat && isascii s'
  end.

(** Truth value of a Python string: only the empty string is falsy. *)
Definition str_truthy (s : string) : bool :=
  match s with
  | EmptyString => false
  | String _ _ => true
  end.

(** ** Objects and the store *)

(** References to objects (Python object identity). *)
Definition loc := nat.

(** Modelled from the spec: the class [NearEarthObject] of [models.py],
    which is not part of the sources at hand.  The fields are those of the
    spec's Object (section 3) under the attribute names [database.py] and
    [extract.py] use: [designation], [name] ([None] when absent),
    [diameter] (a float, NaN when unknown), [hazardous], and [approaches],
    the list of references to the NEO's close approaches. *)
Record NearEarthObject := mkNEO {
  designation : string;
  name : option string;
  diameter : float;
  hazardous : bool;
  approaches : list loc
}.

(** Modelled from the spec: the class [CloseApproach] of [models.py], which
    is not part of the sources at hand.  [_designation] is the spec's
    [object_key]; [time], [distance] and [velocity] are opaque to the
    database; [neo] is the back reference, [None] until linked. *)
Record CloseApproach := mkCA {
  _designation : string;
  time : string;
  distance : float;
  velocity : float;
  neo : option loc
}.

(** The store: one table per class.  A reference of a collection always
    denotes an object, so a lookup in the store that finds nothing has no
    counterpart in Python; the functions below give it no effect. *)
Record heap := mkHeap {
  neo_objs : gmap loc NearEarthObject;
  ca_objs : gmap loc CloseApproach
}.

Definition set_approaches (l : list loc) (o : NearEarthObject) : NearEarthObject :=
  {| designation := designation o; name := name o; diameter := diameter o;
     hazardous := hazardous o; approaches := l |}.

Definition set_neo (n : loc) (c : CloseApproach) : CloseApproach :=
  {| _designation := _designation c; time := time c; distance := distance c;
     velocity := velocity c; neo := Some n |}.

(** [neo.approaches = l] *)
Definition assign_approaches (n : loc) (l : list loc) (h : heap) : heap :=
  {| neo_objs := alter (set_approaches l) n (neo_objs h); ca_objs := ca_objs h |}.

(** [approach.neo = neo] *)
Definition assign_neo (n : loc) (h : heap) (a : loc) : heap :=
  {| neo_objs := neo_objs h; ca_objs := alter (set_neo n) a (ca_objs h) |}.

(** ** Results of calls that can raise *)

Inductive exn := AttributeError.

Inductive result (A : Type) :=
  | Ok (v : A)
  | Raise (e : exn).
Arguments Ok {A} v.
Arguments Raise {A} e.

(** A Python argument that the callers may pass for a key: a [str] or
    [None]. *)
Inductive pyval :=
  | PyNone
  | PyStr (s : string).

(** [v.lower()]: [None] has no attribute [lower]. *)
Definition py_lower (v : pyval) : result string :=
  match v with
  | PyNone => Raise AttributeError
  | PyStr s => Ok (lower s)
  end.

(** ** Filters

    A filter is a callable object taking a close approach and returning a
    boolean; it may read the approach and, through its [neo] reference, the
    NEO, so it is run against the store.  [fid] is the identity of the
    callable: Python compares two such objects by identity. *)
Record AttributeFilter := mkFilter {
  fid : nat;
  fcall : heap -> loc -> bool
}.

(** The collection handed to [query]: the default argument [()] is a tuple,
    a caller may as well pass a list. *)
Inductive pyseq :=
  | PyTuple (fs : list AttributeFilter)
  | PyList (fs : list AttributeFilter).

Definition items (s : pyseq) : list AttributeFilter :=
  match s with
  | PyTuple fs => fs
  | PyList fs => fs
  end.

(** [list.__eq__] on two lists: same length, and element-wise equal. *)
Fixpoint list_eq (xs ys : list AttributeFilter) : bool :=
  match xs, ys with
  | [], [] => true
  | x :: xs', y :: ys' => (fid x =? fid y)%nat && list_eq xs' ys'
  | _, _ => false
  end.

(** [match_fil == filters] where [match_fil] is a list: a list never equals
    a tuple. *)
Definition py_eq (match_fil : list AttributeFilter) (filters : pyseq) : bool :=
  match filters with
  | PyTuple _ => false
  | PyList fs => list_eq match_fil fs
  end.

Module NEODatabase.

(** The attributes of a database. *)
Record t := mk {
  _neos : list loc;
  _approaches : list loc;
  neos : list loc;
  neos_by_designation : gmap string loc;
  neos_by_name : gmap string loc
}.

(** The lambda of the constructor's [filter]:
    [approach._designation.lower() == neo.designation.lower()]. *)
Definition matches (h : heap) (n a : loc) : bool :=
  match neo_objs h !! n, ca_objs h !! a with
  | Some o, Some c => bool_decide (lower (_designation c) = lower (designation o))
  | _, _ => false
  end.

(** Body of the first loop, for one [neo]. *)
Definition link_neo (approaches : list loc) (h : heap) (n : loc) : heap :=
  let matched := List.filter (matches h n) approaches in
  let h1 := assign_approaches n matched h in
  foldl (assign_neo n) h1 matched.

(** The first loop. *)
Definition link (neos approaches : list loc) (h : heap) : heap :=
  foldl (link_neo approaches) h neos.

(** Body of the second loop, for one [row]. *)
Definition index_row (h : heap) (idx : gmap string loc * gmap string loc)
    (row : loc) : gmap string loc * gmap string loc :=
  match neo_objs h !! row with
  | None => idx
  | Some o =>
      let by_des := <[lower (designation o) := row]> (fst idx) in
      let by_name :=
        match name o with
        | Some s => if str_truthy s then <[lower s := row]> (snd idx) else snd idx
        | None => snd idx
        end in
      (by_des, by_name)
  end.

(** The second loop, from the two empty dicts. *)
Definition index (h : heap) (neos : list loc) : gmap string loc * gmap string loc :=
  foldl (index_row h) (∅, ∅) neos.

(** [NEODatabase(neos, approaches)]: the store after linking and the new
    database. *)
Definition __init__ (neos approaches : list loc) (h : heap) : heap * t :=
  let h' := link neos approaches h in
  let idx := index h' neos in
  (h', {| _neos := neos; _approaches := approaches; neos := neos;
          neos_by_designation := fst idx; neos_by_name := snd idx |}).

(** [self.neos_by_designation.get(designation.lower(), None)] *)
Definition get_neo_by_designation (self : t) (designation : pyval) : result (option loc) :=
  match py_lower designation with
  | Raise e => Raise e
  | Ok k => Ok (neos_by_designation self !! k)
  end.

(** [self.neos_by_name.get(name.lower(), None)] *)
Definition get_neo_by_name (self : t) (name : pyval) : result (option loc) :=
  match py_lower name with
  | Raise e => Raise e
  | Ok k => Ok (neos_by_name self !! k)
  end.

(** The inner loop of [query]: the filters that hold of [approach]. *)
Definition match_fil (h : heap) (filters : pyseq) (approach : loc) : list AttributeFilter :=
  List.filter (fun fil => fcall fil h approach) (items filters).

(** The test guarding [yield]. *)
Definition yields (h : heap) (filters : pyseq) (approach : loc) : bool :=
  py_eq (match_fil h filters approach) filters.

(** A suspended [query] generator: what is left of the iteration over
    [self._approaches], and the filters it closed over. *)
Record generator := mkGen {
  g_rest : list loc;
  g_filters : pyseq
}.

(** Calling [query] runs no code: it makes a new generator. *)
Definition query (self : t) (filters : pyseq) : generator :=
  {| g_rest := _approaches self; g_filters := filters |}.

(** Resuming the loop of [query] at [rest]: run it up to the next [yield]. *)
Fixpoint advance (h : heap) (filters : pyseq) (rest : list loc) : option (loc * list loc) :=
  match rest with
  | [] => None
  | approach :: rest' =>
      if yields h filters approach then Some (approach, rest')
      else advance h filters rest'
  end.

(** [next(g)]: the next yielded approach and the generator after it, or
    [None] for StopIteration. *)
Definition next (h : heap) (g : generator) : option (loc * generator) :=
  match advance h (g_filters g) (g_rest g) with
  | None => None
  | Some (a, rest') => Some (a, {| g_rest := rest'; g_filters := g_filters g |})
  end.

(** The loop of [query] run to its end from [rest]. *)
Fixpoint collect (h : heap) (filters : pyseq) (rest : list loc) : list loc :=
  match rest with
  | [] => []
  | approach :: rest' =>
      if yields h filters approach then approach :: collect h filters rest'
      else collect h filters rest'
  end.

(** [list(g)]: everything the generator yields until it is exhausted. *)
Definition to_list (h : heap) (g : generator) : list loc :=
  collect h (g_filters g) (g_rest g).

End NEODatabase.

Import NEODatabase.

(** * Specification vocabulary *)

(** ** What the constructor leaves alone *)

(** Two states of a NEO that differ at most in [approaches]. *)
Definition neo_frame (o o' : NearEarthObject) : Prop :=
  designation o' = designation o ∧ name o' = name o ∧
  diameter o' = diameter o ∧ hazardous o' = hazardous o.

(** Two states of a close approach that differ at most in [neo]. *)
Definition ca_frame (c c' : CloseApproach) : Prop :=
  _designation c' = _designation c ∧ time c' = time c ∧
  distance c' = distance c ∧ velocity c' = velocity c.

(** Two stores with the same objects, up to [approaches] and [neo]. *)
Definition heap_frame (h h' : heap) : Prop :=
  (∀ n, option_Forall2 neo_frame (neo_objs h !! n) (neo_objs h' !! n)) ∧
  (∀ a, option_Forall2 ca_frame (ca_objs h !! a) (ca_objs h' !! a)).

(** ** The whole linking loop, read off the input store *)

(** The close approaches that the round of [n] selects. *)
Definition matched (h : heap) (apps : list loc) (n : loc) : list loc :=
  List.filter (matches h n) apps.

(** The last NEO of [l] whose round selects [a], if any: the value that
    survives in [a.neo]. *)
Definition owner (h : heap) (apps l : list loc) (a : loc) : option loc :=
  foldl (fun acc n => if bool_decide (a ∈ matched h apps n) then Some n else acc) None l.

(** ** The two indexes *)

(** The key under which a row enters [neos_by_designation]. *)
Definition des_key (h : heap) (n : loc) : option string :=
  o ← neo_objs h !! n; Some (lower (designation o)).

(** The key under which a row enters [neos_by_name], if it does. *)
Definition name_key (h : heap) (n : loc) : option string :=
  o ← neo_objs h !! n; s ← name o;
  if str_truthy s then Some (lower s) else None.

(** A dict filled by [update] along a list, later rows overwriting. *)
Definition build (key : loc → option string) (l : list loc) : gmap string loc :=
  foldl (fun m n => match key n with Some k => <[k := n]> m | None => m end) ∅ l.

(** ** Consuming a generator *)

(** [n] calls of [next], stopping at StopIteration: what was yielded, and the
    generator as it is left. *)
Fixpoint take_n (h : heap) (n : nat) (g : generator) : list loc * generator :=
  match n with
  | O => ([], g)
  | S n' =>
      match next h g with
      | None => ([], {| g_rest := []; g_filters := g_filters g |})
      | Some (a, g') => let (ys, g'') := take_n h n' g' in (a :: ys, g'')
      end
  end.

(** ** Conditions on the input *)

(** The constructor's documented precondition on the close approaches: none
    is linked yet. *)
Definition unlinked (h : heap) (apps : list loc) : Prop :=
  Forall (fun a => (ca_objs h !! a) ≫= neo = None) apps.

(** The keys that the rows of [nl] contribute to each index, in order. *)
Definition des_keys (h : heap) (nl : list loc) : list string := omap (des_key h) nl.

Definition name_keys (h : heap) (nl : list loc) : list string := omap (name_key h) nl.

(** The guard of [yield] that the documentation of [query] describes: all
    the filters hold. *)
Definition all_hold (h : heap) (fs : list AttributeFilter) (a : loc) : bool :=
  forallb (fun fil => fcall fil h a) fs.

(** ** A small catalogue

    One NEO, 433 Eros, and two close approaches, the second of an object the
    catalogue does not have. *)
Module Sample.

#[local] Set Warnings "-inexact-float".

Definition eros : NearEarthObject :=
  {| designation := "433"; name := Some "Eros"; diameter := 16.84%float;
     hazardous := false; approaches := [] |}.

Definition ev1 : CloseApproach :=
  {| _designation := "433"; time := "2020-01-01"; distance := 0.15%float;
     velocity := 5.2%float; neo := None |}.

Definition ev2 : CloseApproach :=
  {| _designation := "999"; time := "2020-02-01"; distance := 0.3%float;
     velocity := 3.1%float; neo := None |}.

Definition h0 : heap :=
  {| neo_objs := {[ 10 := eros ]}; ca_objs := <[ 20 := ev1 ]> {[ 21 := ev2 ]} |}.

Definition h1 : heap := fst (__init__ [10] [20; 21] h0).

Definition db : NEODatabase.t := snd (__init__ [10] [20; 21] h0).

(** Eros once linked. *)
Definition eros' : NearEarthObject := set_approaches [20] eros.

(** Two catalogue rows for one object, spelt in different case, and one
    close approach of it. *)
Definition dup_a : NearEarthObject :=
  {| designation := "2020 ab"; name := Some "Alpha"; diameter := nan;
     hazardous := false; approaches := [] |}.

Definition dup_b : NearEarthObject :=
  {| designation := "2020 AB"; name := None; diameter := 1.5%float;
     hazardous := true; approaches := [] |}.

Definition ev3 : CloseApproach :=
  {| _designation := "2020 Ab"; time := "2021-03-04"; distance := 0.5%float;
     velocity := 7.25%float; neo := None |}.

Definition hd0 : heap :=
  {| neo_objs := <[ 10 := dup_a ]> {[ 11 := dup_b ]}; ca_objs := {[ 20 := ev3 ]} |}.

Definition hd1 : heap := fst (__init__ [10; 11] [20] hd0).

Definition dbd : NEODatabase.t := snd (__init__ [10; 11] [20] hd0).

(** A filter that holds of every close approach. *)
Definition always : AttributeFilter := {| fid := 0; fcall := fun _ _ => true |}.

End Sample.

(** * [extract.py]: the loaders

    [load_neos] and [load_approaches] open a file, hand it to
    [csv.DictReader] or [json.load], and turn what the reader gives into
    objects.  The model starts from what the reader gives. *)

(** The exceptions at play.  [Failure] stands for whatever else a
    constructor of [models.py] may raise, by its message. *)
Inductive exception :=
  | KeyError (key : string)
  | ValueError (arg : string)
  | TypeError
  | Failure (msg : string).

(** Running a piece of Python: it returns a value or raises. *)
Inductive outcome (A : Type) :=
  | Returns (v : A)
  | Raises (e : exception).
Arguments Returns {A} v.
Arguments Raises {A} e.

#[global] Instance outcome_ret : MRet outcome := fun A v => Returns v.

#[global] Instance outcome_bind : MBind outcome := fun A B f m =>
  match m with
  | Returns v => f v
  | Raises e => Raises e
  end.

(** [d[k]] on a dict with string keys. *)
Definition getitem {V} (d : gmap string V) (k : string) : outcome V :=
  match d !! k with
  | Some v => Returns v
  | None => Raises (KeyError k)
  end.

(** Truth value of a [str] or [None]. *)
Definition truthy (v : pyval) : bool :=
  match v with
  | PyNone => false
  | PyStr s => str_truthy s
  end.

(** [v in ['N', '']] *)
Definition in_N_or_empty (v : pyval) : bool :=
  match v with
  | PyNone => false
  | PyStr s => bool_decide (s = "N") || bool_decide (s = EmptyString)
  end.

(** The keyword arguments of [NearEarthObject(...)]. *)
Record neo_args := mkNeoArgs {
  arg_pdes : pyval;
  arg_name : pyval;
  arg_diameter : float;
  arg_pha : bool
}.

(** A row of [csv.DictReader]: a dict from column names to the field, a
    [str], or [None] for a column that the line is too short to reach. *)
Abbreviation csv_row := (gmap string pyval).

Section load_neos.

Context {T : Type}.

(** [float(s)] on a string: the number it parses to, or [None] for
    ValueError. *)
Variable py_float : string → option float.

(** The constructor [NearEarthObject] of [models.py], which is not part of
    the sources at hand: any function from the keyword arguments to a new
    object or an exception. *)
Variable NearEarthObject_new : neo_args → outcome T.

(** [float(row['diameter'])], reached only when the field is truthy. *)
Definition float_of (v : pyval) : outcome float :=
  match v with
  | PyNone => Raises TypeError
  | PyStr s =>
      match py_float s with
      | Some x => Returns x
      | None => Raises (ValueError s)
      end
  end.

(** The body of the [try] in [load_neos], up to the call of the
    constructor. *)
Definition neo_args_of_row (row : csv_row) : outcome neo_args :=
  d ← getitem row "diameter";
  diameter ← (if truthy d then float_of d else Returns nan);
  n ← getitem row "name";
  let name := if truthy n then n else PyNone in
  p ← getitem row "pha";
  let pha := negb (in_N_or_empty p) in
  pdes ← getitem row "pdes";
  Returns {| arg_pdes := pdes; arg_name := name; arg_diameter := diameter;
             arg_pha := pha |}.

(** The body of the [try] in [load_neos]. *)
Definition neo_of_row (row : csv_row) : outcome T :=
  args ← neo_args_of_row row; NearEarthObject_new args.

(** One turn of the loop of [load_neos]; the state is the list [rows] and
    what has been printed. *)
Definition load_neos_step (st : list T * list exception) (row : csv_row)
    : list T * list exception :=
  match neo_of_row row with
  | Returns neo => (fst st ++ [neo], snd st)
  | Raises e => (fst st, snd st ++ [e])
  end.

(** [load_neos], from the rows of the reader: the list returned and what was
    printed. *)
Definition load_neos (reader : list csv_row) : list T * list exception :=
  foldl load_neos_step ([], []) reader.

End load_neos.

#[local] Set Warnings "-register-all".

(** What [json.load] returns.  A dict is kept as its items in insertion
    order; its keys are distinct. *)
Inductive json :=
  | JNull
  | JBool (b : bool)
  | JInt (z : Z)
  | JFloat (x : float)
  | JStr (s : string)
  | JList (l : list json)
  | JDict (items : list (string * json)).

Fixpoint assoc (k : string) (items : list (string * json)) : option json :=
  match items with
  | [] => None
  | (k', v) :: rest => if decide (k = k') then Some v else assoc k rest
  end.

(** [v[k]] for a string [k]: only a dict can be subscripted by a string. *)
Definition subscript (v : json) (k : string) : outcome json :=
  match v with
  | JDict items =>
      match assoc k items with
      | Some x => Returns x
      | None => Raises (KeyError k)
      end
  | _ => Raises TypeError
  end.

(** [iter(v)], run to its end: the elements of a list, the characters of a
    string, the keys of a dict; the rest is not iterable. *)
Definition iterate (v : json) : outcome (list json) :=
  match v with
  | JList l => Returns l
  | JStr s => Returns (map (fun c => JStr (String c EmptyString)) (list_ascii_of_string s))
  | JDict items => Returns (map (fun kv => JStr (fst kv)) items)
  | _ => Raises TypeError
  end.

(** Lists and dicts cannot be keys of a dict. *)
Definition hashable (v : json) : bool :=
  match v with
  | JList _ | JDict _ => false
  | _ => true
  end.

(** [dict(pairs)], as far as string keys can tell: a later pair overwrites an
    earlier one; a key that is not a string can never be looked up by a
    string, and one that is not hashable raises. *)
Fixpoint dict_of (pairs : list (json * json)) (d : gmap string json)
    : outcome (gmap string json) :=
  match pairs with
  | [] => Returns d
  | (k, v) :: rest =>
      if hashable k then
        dict_of rest (match k with JStr s => <[s := v]> d | _ => d end)
      else Raises TypeError
  end.

(** The keyword arguments of [CloseApproach(...)]. *)
Record approach_args := mkApproachArgs {
  arg_des : json;
  arg_cd : json;
  arg_dist : json;
  arg_v_rel : json
}.

Section load_approaches.

Context {T : Type}.

(** The constructor [CloseApproach] of [models.py], which is not part of the
    sources at hand. *)
Variable CloseApproach_new : approach_args → outcome T.

(** [dict(zip(fields, ele))] *)
Definition zip_dict (fields ele : json) : outcome (gmap string json) :=
  fs ← iterate fields;
  es ← iterate ele;
  dict_of (zip fs es) ∅.

(** The arguments of the call in the [try] of [load_approaches]. *)
Definition approach_args_of (data : gmap string json) : outcome approach_args :=
  des ← getitem data "des";
  cd ← getitem data "cd";
  dist ← getitem data "dist";
  v_rel ← getitem data "v_rel";
  Returns {| arg_des := des; arg_cd := cd; arg_dist := dist; arg_v_rel := v_rel |}.

(** The body of the [try] in [load_approaches]. *)
Definition approach_of (data : gmap string json) : outcome T :=
  args ← approach_args_of data; CloseApproach_new args.

(** The loop of [load_approaches] over the rows left; the state is the list
    [cad] and what has been printed.  An exception outside the [try] ends
    the call; what was printed stays printed. *)
Fixpoint load_approaches_loop (cad_data : json) (eles : list json)
    (cad : list T) (out : list exception) : outcome (list T) * list exception :=
  match eles with
  | [] => (Returns cad, out)
  | ele :: rest =>
      match fields ← subscript cad_data "fields"; zip_dict fields ele with
      | Raises e => (Raises e, out)
      | Returns data =>
          match approach_of data with
          | Returns ca => load_approaches_loop cad_data rest (cad ++ [ca]) out
          | Raises e => load_approaches_loop cad_data rest cad (out ++ [e])
          end
      end
  end.

(** [load_approaches], from the value of [json.load]: the list returned, or
    the exception raised, and what was printed. *)
Definition load_approaches (cad_data : json) : outcome (list T) * list exception :=
  match data ← subscript cad_data "data"; iterate data with
  | Raises e => (Raises e, [])
  | Returns eles => load_approaches_loop cad_data eles [] []
  end.

End load_approaches.

(** ** Sample inputs of the loaders *)
Module Cases.

#[local] Set Warnings "-inexact-float".

(** A filter that holds of the close approaches that are linked to a NEO. *)
Definition linked : AttributeFilter :=
  {| fid := 1;
     fcall := fun h a =>
       match ca_objs h !! a with
       | Some c => bool_decide (is_Some (neo c))
       | None => false
       end |}.

(** [float] on the two numerals of the sample rows; it rejects the rest. *)
Definition sample_float (s : string) : option float :=
  if decide (s = "16.84") then Some 16.84%float
  else if decide (s = "1.5") then Some 1.5%float
  else None.

Definition csv_line (pdes name diameter pha : pyval) : csv_row :=
  <["pdes" := pdes]> (<["name" := name]> (<["diameter" := diameter]>
    {["pha" := pha]})).

Definition row_eros : csv_row :=
  csv_line (PyStr "433") (PyStr "Eros") (PyStr "16.84") (PyStr "N").

Definition row_unnamed : csv_row :=
  csv_line (PyStr "2020 AB") (PyStr EmptyString) (PyStr EmptyString) (PyStr "Y").

(** A row whose diameter is not a number. *)
Definition row_bad : csv_row :=
  csv_line (PyStr "2021 CD") (PyStr "Bad") (PyStr "wide") (PyStr "N").

Definition args_eros : neo_args :=
  {| arg_pdes := PyStr "433"; arg_name := PyStr "Eros";
     arg_diameter := 16.84%float; arg_pha := false |}.

Definition args_unnamed : neo_args :=
  {| arg_pdes := PyStr "2020 AB"; arg_name := PyNone;
     arg_diameter := nan; arg_pha := true |}.

Definition cad_names : list string := ["des"; "orbit_id"; "cd"; "dist"; "v_rel"].

Definition cad_row1 : list json :=
  [JStr "433"; JStr "659"; JStr "1900-Dec-27 01:30"; JStr "0.0963"; JStr "5.58"].

(** A row too short to reach ['dist']. *)
Definition cad_row2 : list json := [JStr "999"; JStr "12"; JStr "1901-Jan-01 00:00"].

Definition cad_items : list (string * json) :=
  [("signature", JDict [("version", JStr "1.1")]);
   ("count", JStr "2");
   ("fields", JList (map JStr cad_names));
   ("data", JList (map JList [cad_row1; cad_row2]))].

Definition args_row1 : approach_args :=
  {| arg_des := JStr "433"; arg_cd := JStr "1900-Dec-27 01:30";
     arg_dist := JStr "0.0963"; arg_v_rel := JStr "5.58" |}.

(** A catalogue of two NEOs with different designations and three close
    approaches, one of each NEO and one of neither. *)
Definition ganymed : NearEarthObject :=
  {| designation := "2021 cd"; name := Some "Ganymed"; diameter := 37.675%float;
     hazardous := false; approaches := [] |}.

Definition ev_ganymed : CloseApproach :=
  {| _designation := "2021 CD"; time := "2024-10-13"; distance := 0.375%float;
     velocity := 15.5%float; neo := None |}.

Definition hc0 : heap :=
  {| neo_objs := <[ 10 := Sample.eros ]> {[ 11 := ganymed ]};
     ca_objs := <[ 20 := Sample.ev1 ]> (<[ 21 := Sample.ev2 ]> {[ 22 := ev_ganymed ]}) |}.

Definition hc1 : heap := fst (__init__ [10; 11] [20; 21; 22] hc0).

Definition dbc : NEODatabase.t := snd (__init__ [10; 11] [20; 21; 22] hc0).

(** The string "ß1": sharp s is U+00DF. *)
Definition sharp_s_1 : string := String (ascii_of_nat 223) "1".

(** A catalogue of one NEO, whose designation is "ß1". *)
Definition neo_sharp : NearEarthObject :=
  {| designation := sharp_s_1; name := None; diameter := nan;
     hazardous := false; approaches := [] |}.

Definition hs0 : heap := {| neo_objs := {[ 10 := neo_sharp ]}; ca_objs := ∅ |}.

Definition hs1 : heap := fst (__init__ [10] [] hs0).

Definition dbs : NEODatabase.t := snd (__init__ [10] [] hs0).

End Cases.

(** * Properties *)

(** ** Strings *)

Lemma lower_lower_char c : lower_char (lower_char c) = lower_char c.
Proof. by destruct c as [[] [] [] [] [] [] [] []]. Qed.

(** On an ASCII character, upper-casing then lower-casing is lower-casing. *)
Lemma upper_char_ascii c :
  (nat_of_ascii c <? 128)%nat = true →
  ∃ u, upper_char c = Some (String u EmptyString) ∧ lower_char u = lower_char c.
Proof.
  destruct c as [[] [] [] [] [] [] [] []]; intros Hc; try discriminate Hc;
    eexists; split; reflexivity.
Qed.

Lemma upper_isascii s :
  isascii s = true → ∃ u, upper s = Some u ∧ lower u = lower s.
Proof.
  induction s as [|c s IH]; [by exists EmptyString|].
  cbn [isascii]. intros [Hc Hs]%andb_true_iff.
  destruct (upper_char_ascii c Hc) as (u & Hu & Hlow).
  destruct (IH Hs) as (r & Hr & Hlr).
  exists (String u r). cbn [upper]. rewrite Hu, Hr. cbn [String.append lower].
  by rewrite Hlow, Hlr.
Qed.

Lemma lower_lower s : lower (lower s) = lower s.
Proof. induction s as [|c s IH]; simpl; [done|]. by rewrite lower_lower_char, IH. Qed.

(** ** The frame relation *)

Lemma neo_frame_refl o : neo_frame o o.
Proof. by repeat split. Qed.

Lemma ca_frame_refl c : ca_frame c c.
Proof. by repeat split. Qed.

Lemma neo_frame_trans o1 o2 o3 : neo_frame o1 o2 → neo_frame o2 o3 → neo_frame o1 o3.
Proof. unfold neo_frame. intros (?&?&?&?) (?&?&?&?). repeat split; congruence. Qed.

Lemma ca_frame_trans c1 c2 c3 : ca_frame c1 c2 → ca_frame c2 c3 → ca_frame c1 c3.
Proof. unfold ca_frame. intros (?&?&?&?) (?&?&?&?). repeat split; congruence. Qed.

Lemma option_frame_refl {A} (R : A → A → Prop) (x : option A) :
  (∀ a, R a a) → option_Forall2 R x x.
Proof. intros HR. destruct x; constructor; auto. Qed.

Lemma option_frame_trans {A} (R : A → A → Prop) (x y z : option A) :
  (∀ a b c, R a b → R b c → R a c) →
  option_Forall2 R x y → option_Forall2 R y z → option_Forall2 R x z.
Proof.
  intros HR Hxy Hyz. destruct Hxy; inversion Hyz; subst; constructor; eauto.
Qed.

Lemma heap_frame_refl h : heap_frame h h.
Proof.
  split; intros; apply option_frame_refl; auto using neo_frame_refl, ca_frame_refl.
Qed.

Lemma heap_frame_trans h1 h2 h3 : heap_frame h1 h2 → heap_frame h2 h3 → heap_frame h1 h3.
Proof.
  intros [Hn1 Hc1] [Hn2 Hc2]. split; intros x.
  - eapply option_frame_trans; eauto using neo_frame_trans.
  - eapply option_frame_trans; eauto using ca_frame_trans.
Qed.

(** ** One round of the linking loop *)

Lemma foldl_assign_neo_neo_objs n l h :
  neo_objs (foldl (assign_neo n) h l) = neo_objs h.
Proof. revert h. induction l as [|x l IH]; intros h; simpl; [done|]. by rewrite IH. Qed.

Lemma foldl_assign_neo_ca_objs n l h a :
  ca_objs (foldl (assign_neo n) h l) !! a =
  if decide (a ∈ l) then set_neo n <$> ca_objs h !! a else ca_objs h !! a.
Proof.
  revert h. induction l as [|x l IH]; intros h; cbn [foldl].
  - case_decide as Hin; [by apply elem_of_nil in Hin|done].
  - rewrite IH. cbn [assign_neo ca_objs]. rewrite lookup_alter.
    destruct (decide (a ∈ l)) as [Hl|Hl], (decide (x = a)) as [->|Hx];
      case_decide as Hin; try done.
    + by destruct (ca_objs h !! a).
    + exfalso. apply Hin. by right.
    + exfalso. apply Hin. by right.
    + exfalso. apply Hin. by left.
    + apply elem_of_cons in Hin as [->|?]; done.
Qed.

Lemma link_neo_neo_objs apps h n :
  neo_objs (link_neo apps h n) =
  alter (set_approaches (List.filter (matches h n) apps)) n (neo_objs h).
Proof. unfold link_neo. by rewrite foldl_assign_neo_neo_objs. Qed.

Lemma link_neo_ca_objs apps h n a :
  ca_objs (link_neo apps h n) !! a =
  if decide (a ∈ List.filter (matches h n) apps)
  then set_neo n <$> ca_objs h !! a else ca_objs h !! a.
Proof. unfold link_neo. by rewrite foldl_assign_neo_ca_objs. Qed.

Lemma link_neo_frame apps h n : heap_frame h (link_neo apps h n).
Proof.
  split.
  - intros m. rewrite link_neo_neo_objs, lookup_alter.
    case_decide; simplify_eq; destruct (neo_objs h !! m); constructor;
      auto using neo_frame_refl. by repeat split.
  - intros a. rewrite link_neo_ca_objs.
    case_decide; simplify_eq; destruct (ca_objs h !! a); constructor;
      auto using ca_frame_refl. by repeat split.
Qed.

Lemma link_snoc l x apps h :
  link (l ++ [x]) apps h = link_neo apps (link l apps h) x.
Proof. unfold link. by rewrite foldl_app. Qed.

Lemma link_frame l apps h : heap_frame h (link l apps h).
Proof.
  induction l as [|x l IH] using rev_ind.
  - apply heap_frame_refl.
  - rewrite link_snoc. eapply heap_frame_trans; [exact IH|apply link_neo_frame].
Qed.

(** The test of the constructor's [filter] reads designations only, so it
    gives the same answer in every store of one construction. *)
Lemma matches_frame h h' n a : heap_frame h h' → matches h' n a = matches h n a.
Proof.
  intros [Hn Hc]. unfold matches. specialize (Hn n). specialize (Hc a).
  destruct Hn as [o o' (Hd&_)|]; [|done].
  destruct Hc as [c c' (Hk&_)|]; [|done].
  by rewrite Hd, Hk.
Qed.

Lemma filter_matches_frame h h' n apps :
  heap_frame h h' → List.filter (matches h' n) apps = List.filter (matches h n) apps.
Proof.
  intros Hf. apply List.filter_ext. intros a. by apply matches_frame.
Qed.

(** ** The whole linking loop *)

Lemma elem_of_matched h apps n a :
  a ∈ matched h apps n ↔ a ∈ apps ∧ matches h n a = true.
Proof. unfold matched. rewrite !list_elem_of_In. apply List.filter_In. Qed.

Lemma owner_snoc h apps l x a :
  owner h apps (l ++ [x]) a =
  if bool_decide (a ∈ matched h apps x) then Some x else owner h apps l a.
Proof. unfold owner. by rewrite foldl_app. Qed.

Lemma owner_Some h apps l a n :
  owner h apps l a = Some n → n ∈ l ∧ a ∈ matched h apps n.
Proof.
  induction l as [|x l IH] using rev_ind; [done|].
  rewrite owner_snoc. case_bool_decide as Hx.
  - intros [= <-]. split; [|done]. apply elem_of_app. right. by left.
  - intros Ho. destruct (IH Ho) as [Hl Hm]. split; [|done].
    apply elem_of_app. by left.
Qed.

Lemma owner_last h apps l1 n l2 a :
  a ∈ matched h apps n →
  (∀ m, m ∈ l2 → a ∉ matched h apps m) →
  owner h apps (l1 ++ n :: l2) a = Some n.
Proof.
  intros Hn. induction l2 as [|x l2 IH] using rev_ind; intros Hl2.
  - rewrite owner_snoc. by rewrite bool_decide_true.
  - replace (l1 ++ n :: l2 ++ [x]) with ((l1 ++ n :: l2) ++ [x])
      by (by rewrite <- app_assoc).
    rewrite owner_snoc, bool_decide_false.
    + apply IH. intros m Hm. apply Hl2, elem_of_app. by left.
    + apply Hl2, elem_of_app. right. by left.
Qed.

Lemma link_neo_objs l apps h n :
  neo_objs (link l apps h) !! n =
  if decide (n ∈ l) then set_approaches (matched h apps n) <$> neo_objs h !! n
  else neo_objs h !! n.
Proof.
  induction l as [|x l IH] using rev_ind.
  - case_decide as Hin; [by apply elem_of_nil in Hin|done].
  - rewrite link_snoc, link_neo_neo_objs, lookup_alter.
    rewrite (filter_matches_frame h) by apply link_frame.
    rewrite IH. fold (matched h apps x).
    destruct (decide (x = n)) as [->|Hx].
    + rewrite decide_True by (apply elem_of_app; right; by left).
      rewrite IH. case_decide; [|done]. by destruct (neo_objs h !! n).
    + destruct (decide (n ∈ l)) as [Hl|Hl].
      * rewrite decide_True by (apply elem_of_app; by left). done.
      * rewrite decide_False; [done|].
        intros [?|Hn%list_elem_of_singleton]%elem_of_app; done.
Qed.

Lemma link_ca_objs l apps h a :
  ca_objs (link l apps h) !! a =
  match owner h apps l a with
  | Some n => set_neo n <$> ca_objs h !! a
  | None => ca_objs h !! a
  end.
Proof.
  induction l as [|x l IH] using rev_ind; [done|].
  rewrite link_snoc, link_neo_ca_objs, owner_snoc.
  rewrite (filter_matches_frame h) by apply link_frame.
  fold (matched h apps x). rewrite IH.
  case_decide as Hx.
  - rewrite bool_decide_true by done.
    destruct (owner h apps l a); [|done]. by destruct (ca_objs h !! a).
  - by rewrite bool_decide_false.
Qed.

(** ** The indexes as dicts filled in input order *)

Lemma index_build h l :
  index h l = (build (des_key h) l, build (name_key h) l).
Proof.
  unfold index, build. induction l as [|x l IH] using rev_ind; [done|].
  rewrite !foldl_app. cbn [foldl]. rewrite IH.
  unfold index_row, des_key, name_key. simpl.
  destruct (neo_objs h !! x) as [o|]; simpl; [|done].
  destruct (name o) as [s|]; simpl; [|done]. by destruct (str_truthy s).
Qed.

Lemma build_snoc key l x :
  build key (l ++ [x]) =
  match key x with Some k => <[k := x]> (build key l) | None => build key l end.
Proof. unfold build. by rewrite foldl_app. Qed.

Lemma build_miss key l k :
  (∀ m, m ∈ l → key m ≠ Some k) → build key l !! k = None.
Proof.
  induction l as [|x l IH] using rev_ind; intros Hl; [done|].
  rewrite build_snoc.
  assert (build key l !! k = None) as Hk.
  { apply IH. intros m Hm. apply Hl, elem_of_app. by left. }
  destruct (key x) as [k'|] eqn:Hx; [|done].
  rewrite lookup_insert_ne; [done|]. intros ->.
  apply (Hl x); [|done]. apply elem_of_app. right. by left.
Qed.

Lemma build_last key l1 n l2 k :
  key n = Some k →
  (∀ m, m ∈ l2 → key m ≠ Some k) →
  build key (l1 ++ n :: l2) !! k = Some n.
Proof.
  intros Hn. induction l2 as [|x l2 IH] using rev_ind; intros Hl2.
  - rewrite build_snoc, Hn. apply lookup_insert_eq.
  - replace (l1 ++ n :: l2 ++ [x]) with ((l1 ++ n :: l2) ++ [x])
      by (by rewrite <- app_assoc).
    rewrite build_snoc.
    assert (build key (l1 ++ n :: l2) !! k = Some n) as Hk.
    { apply IH. intros m Hm. apply Hl2, elem_of_app. by left. }
    destruct (key x) as [k'|] eqn:Hx; [|done].
    rewrite lookup_insert_ne; [done|]. intros ->.
    apply (Hl2 x); [|done]. apply elem_of_app. right. by left.
Qed.

Lemma build_NoDup key l k n :
  NoDup (omap key l) → n ∈ l → key n = Some k → build key l !! k = Some n.
Proof.
  intros Hnd Hin Hn. apply list_elem_of_split in Hin as (l1 & l2 & ->).
  apply build_last; [done|]. intros m Hm Hk.
  rewrite omap_app in Hnd. apply NoDup_app in Hnd as (_ & _ & Hnd).
  simpl in Hnd. rewrite Hn in Hnd. apply NoDup_cons in Hnd as [Hnot _].
  apply Hnot. apply list_elem_of_omap. eauto.
Qed.

Lemma des_key_frame h h' n : heap_frame h h' → des_key h' n = des_key h n.
Proof.
  intros [Hn _]. unfold des_key. destruct (Hn n) as [o o' (Hd&_)|]; simpl; [|done].
  by rewrite Hd.
Qed.

Lemma name_key_frame h h' n : heap_frame h h' → name_key h' n = name_key h n.
Proof.
  intros [Hn _]. unfold name_key. destruct (Hn n) as [o o' (_&Hd&_)|]; simpl; [|done].
  by rewrite Hd.
Qed.

Lemma build_ext key key' l : (∀ n, key n = key' n) → build key l = build key' l.
Proof.
  intros He. induction l as [|x l IH] using rev_ind; [done|].
  by rewrite !build_snoc, IH, He.
Qed.

(** The database that the constructor returns, in terms of the input. *)
Lemma init_indexes nl apps h :
  neos_by_designation (snd (__init__ nl apps h)) = build (des_key h) nl ∧
  neos_by_name (snd (__init__ nl apps h)) = build (name_key h) nl.
Proof.
  unfold __init__. cbn [snd neos_by_designation neos_by_name].
  rewrite index_build. cbn [fst snd]. split; apply build_ext; intros n.
  - apply des_key_frame, link_frame.
  - apply name_key_frame, link_frame.
Qed.

(** ** The query generator *)

Lemma list_eq_refl xs : list_eq xs xs = true.
Proof. induction xs as [|x xs IH]; simpl; [done|]. by rewrite Nat.eqb_refl. Qed.

Lemma list_eq_length xs ys : list_eq xs ys = true → length xs = length ys.
Proof.
  revert ys. induction xs as [|x xs IH]; intros [|y ys]; simpl; try done.
  intros [_ H]%andb_true_iff. by rewrite (IH ys).
Qed.

Lemma filter_all {A} (p : A → bool) l : forallb p l = true → List.filter p l = l.
Proof.
  induction l as [|x l IH]; simpl; [done|].
  intros [Hx Hl]%andb_true_iff. by rewrite Hx, IH.
Qed.

Lemma filter_length_all {A} (p : A → bool) l :
  length (List.filter p l) = length l → forallb p l = true.
Proof.
  induction l as [|x l IH]; simpl; [done|].
  pose proof (List.filter_length_le p l) as Hle.
  destruct (p x); simpl; [|lia]. intros [= Hl]. auto.
Qed.

(** With a list of filters the guard of [yield] is the conjunction. *)
Lemma yields_list h fs a :
  yields h (PyList fs) a = forallb (fun fil => fcall fil h a) fs.
Proof.
  unfold yields, match_fil, py_eq. cbn [items].
  destruct (forallb _ fs) eqn:Hall.
  - rewrite filter_all by done. apply list_eq_refl.
  - apply not_true_is_false. intros Heq%list_eq_length%filter_length_all.
    congruence.
Qed.

(** With a tuple of filters the guard never holds. *)
Lemma yields_tuple h fs a : yields h (PyTuple fs) a = false.
Proof. done. Qed.

Lemma collect_filter h filters l :
  collect h filters l = List.filter (yields h filters) l.
Proof. induction l as [|a l IH]; simpl; [done|]. by rewrite IH. Qed.

(** [list(g)] is what repeated [next(g)] returns until StopIteration. *)
Lemma to_list_next h g :
  to_list h g =
  match next h g with
  | None => []
  | Some (a, g') => a :: to_list h g'
  end.
Proof.
  destruct g as [rest filters]. unfold to_list, next. cbn [g_rest g_filters].
  induction rest as [|a rest IH]; simpl; [done|].
  destruct (yields h filters a); [done|]. rewrite IH.
  by destruct (advance h filters rest) as [[??]|].
Qed.

Lemma take_n_to_list h n g :
  to_list h g = fst (take_n h n g) ++ to_list h (snd (take_n h n g)).
Proof.
  revert g. induction n as [|n IH]; intros g; simpl; [done|].
  rewrite to_list_next. destruct (next h g) as [[a g']|]; [|done].
  specialize (IH g'). destruct (take_n h n g') as [ys g'']. simpl in *.
  by rewrite IH.
Qed.

Lemma advance_rest_length h filters rest a rest' :
  advance h filters rest = Some (a, rest') → length rest' < length rest.
Proof.
  revert a rest'. induction rest as [|x rest IH]; intros a rest'; simpl; [done|].
  destruct (yields h filters x).
  - intros [= _ <-]. lia.
  - intros Ha%IH. lia.
Qed.

(** A generator is spent after as many [next] as it has approaches left. *)
Lemma take_n_exhausts h n g :
  (length (g_rest g) ≤ n)%nat → next h (snd (take_n h n g)) = None.
Proof.
  revert g. induction n as [|n IH]; intros g Hn; simpl.
  - destruct g as [[|??] ?]; simpl in *; [done|lia].
  - destruct (next h g) as [[a g']|] eqn:Hg; [|done].
    assert (length (g_rest g') < length (g_rest g))%nat as Hlt.
    { unfold next in Hg.
      destruct (advance _ _ _) as [[b rest']|] eqn:Ha; [|done].
      injection Hg as _ <-. by apply advance_rest_length in Ha. }
    specialize (IH g').
    destruct (take_n h n g') as [ys g'']. simpl in *. apply IH. lia.
Qed.

(** ** Linking *)

(** C4 (linking completeness).  After construction the [approaches] list of
    every NEO of the input collection is the input collection of close
    approaches filtered, in input order, by "the lower-cased [_designation]
    equals the NEO's lower-cased [designation]"; so a close approach is in
    the list exactly when it is in the input and its key matches. *)
Theorem linking_completeness (nl apps : list loc) (h : heap) (O : loc)
    (o' : NearEarthObject) :
  let h' := fst (__init__ nl apps h) in
  O ∈ nl →
  neo_objs h' !! O = Some o' →
  approaches o' =
    List.filter (fun E =>
      match ca_objs h' !! E with
      | Some c => bool_decide (lower (_designation c) = lower (designation o'))
      | None => false
      end) apps ∧
  ∀ E, E ∈ approaches o' ↔
       E ∈ apps ∧
       ∃ c, ca_objs h' !! E = Some c ∧
            lower (_designation c) = lower (designation o').
Proof.
  intros h' HO Ho'.
  assert (heap_frame h h') as Hfr by apply link_frame.
  assert (approaches o' = matched h' apps O) as Happ.
  { unfold h' in Ho'. cbn [__init__ fst] in Ho'.
    rewrite link_neo_objs, decide_True in Ho' by done.
    destruct (neo_objs h !! O) as [o|]; [|done]. injection Ho' as <-.
    unfold matched. cbn [set_approaches approaches].
    symmetry. by apply filter_matches_frame. }
  assert (∀ E, matches h' O E =
               match ca_objs h' !! E with
               | Some c => bool_decide (lower (_designation c) = lower (designation o'))
               | None => false
               end) as Hm.
  { intros E. unfold matches. by rewrite Ho'. }
  split.
  - rewrite Happ. unfold matched. apply List.filter_ext, Hm.
  - intros E. rewrite Happ, elem_of_matched, Hm.
    destruct (ca_objs h' !! E) as [c|].
    + rewrite bool_decide_eq_true. split.
      * intros [??]. eauto.
      * intros [? (c0 & [= <-] & ?)]. done.
    + split; [by intros [??]|]. by intros [? (c0 & ? & ?)].
Qed.

Lemma linking_completeness_witness :
  approaches Sample.eros' = [20] ∧
  ∀ E, E ∈ approaches Sample.eros' ↔
       E ∈ [20; 21] ∧
       ∃ c, ca_objs Sample.h1 !! E = Some c ∧
            lower (_designation c) = lower (designation Sample.eros').
Proof.
  apply (linking_completeness [10] [20; 21] Sample.h0 10 Sample.eros').
  - compute_done.
  - reflexivity.
Defined.

Lemma build_key_inj (key : loc → option string) (l : list loc) k n m :
  NoDup (omap key l) → n ∈ l → m ∈ l → key n = Some k → key m = Some k → n = m.
Proof.
  intros Hnd Hn Hm Hkn Hkm.
  pose proof (build_NoDup key l k n Hnd Hn Hkn) as H1.
  pose proof (build_NoDup key l k m Hnd Hm Hkm) as H2. congruence.
Qed.

(** What a close approach reads after construction, by cases on whether
    some round of the linking loop selected it. *)
Lemma init_ca_objs nl apps h a :
  ca_objs (fst (__init__ nl apps h)) !! a =
  match owner h apps nl a with
  | Some n => set_neo n <$> ca_objs h !! a
  | None => ca_objs h !! a
  end.
Proof. apply link_ca_objs. Qed.

Lemma init_neo_objs nl apps h n :
  neo_objs (fst (__init__ nl apps h)) !! n =
  if decide (n ∈ nl) then set_approaches (matched h apps n) <$> neo_objs h !! n
  else neo_objs h !! n.
Proof. apply link_neo_objs. Qed.

Lemma matches_Some h n a :
  matches h n a = true →
  ∃ o c, neo_objs h !! n = Some o ∧ ca_objs h !! a = Some c ∧
         lower (_designation c) = lower (designation o).
Proof.
  unfold matches. destruct (neo_objs h !! n) as [o|]; [|done].
  destruct (ca_objs h !! a) as [c|]; [|done].
  intros ?%bool_decide_eq_true. eauto.
Qed.

(** C5 (bidirectionality).  Take input whose NEO designations are pairwise
    distinct up to case and whose close approaches are not linked yet.  After
    construction, a close approach of the input with a non-null [neo] points
    to a NEO of the input whose designation equals the approach's
    [_designation] up to case, that NEO is the only one of the input with
    such a designation, and the approach is in that NEO's [approaches]. *)
Theorem bidirectional (nl apps : list loc) (h : heap) (E O : loc)
    (c' : CloseApproach) :
  let h' := fst (__init__ nl apps h) in
  NoDup (des_keys h nl) →
  unlinked h apps →
  E ∈ apps →
  ca_objs h' !! E = Some c' →
  neo c' = Some O →
  O ∈ nl ∧
  ∃ o', neo_objs h' !! O = Some o' ∧
        lower (designation o') = lower (_designation c') ∧
        E ∈ approaches o' ∧
        ∀ O2 o2, O2 ∈ nl → neo_objs h' !! O2 = Some o2 →
                 lower (designation o2) = lower (_designation c') → O2 = O.
Proof.
  intros h' Hnd Hun HE Hc' HO. unfold h' in *.
  rewrite init_ca_objs in Hc'.
  destruct (owner h apps nl E) as [n|] eqn:Hown.
  - destruct (ca_objs h !! E) as [c|] eqn:Hc; [|done].
    injection Hc' as <-. cbn [set_neo neo _designation] in *.
    injection HO as ->.
    apply owner_Some in Hown as [HOin Hmat].
    pose proof Hmat as [_ (o & c0 & Ho & Hc0 & Hkey)%matches_Some]%elem_of_matched.
    rewrite Hc in Hc0. injection Hc0 as <-.
    split; [done|]. exists (set_approaches (matched h apps O) o).
    rewrite init_neo_objs, decide_True, Ho by done.
    repeat split; [done..|].
    intros O2 o2 HO2 Ho2 Hkey2.
    rewrite init_neo_objs, decide_True in Ho2 by done.
    destruct (neo_objs h !! O2) as [o2'|] eqn:Ho2'; [|done].
    injection Ho2 as <-. cbn [set_approaches designation] in Hkey2.
    apply (build_key_inj (des_key h) nl (lower (designation o)));
      [done..| |]; unfold des_key.
    + rewrite Ho2'. simpl. congruence.
    + by rewrite Ho.
  - unfold unlinked in Hun. rewrite Forall_forall in Hun. specialize (Hun E HE).
    rewrite Hc' in Hun. simpl in Hun. congruence.
Qed.

Lemma bidirectional_witness :
  10 ∈ [10] ∧
  ∃ o', neo_objs Sample.h1 !! 10 = Some o' ∧
        lower (designation o') = lower (_designation (set_neo 10 Sample.ev1)) ∧
        20 ∈ approaches o' ∧
        ∀ O2 o2, O2 ∈ [10] → neo_objs Sample.h1 !! O2 = Some o2 →
                 lower (designation o2) = lower (_designation (set_neo 10 Sample.ev1)) →
                 O2 = 10.
Proof.
  apply (bidirectional [10] [20; 21] Sample.h0 20 10 (set_neo 10 Sample.ev1)).
  - compute_done.
  - compute_done.
  - compute_done.
  - reflexivity.
  - reflexivity.
Defined.

(** A close approach keeps its [_designation] through construction. *)
Lemma init_ca_key nl apps h a c' :
  ca_objs (fst (__init__ nl apps h)) !! a = Some c' →
  ∃ c, ca_objs h !! a = Some c ∧ _designation c = _designation c'.
Proof.
  rewrite init_ca_objs.
  destruct (owner h apps nl a), (ca_objs h !! a) as [c|]; try done;
    intros [= <-]; eauto.
Qed.

(** C10 (last write wins).  When two NEOs of the input, [O1] before [O2],
    have designations equal up to case, and no NEO after [O2] has that
    designation, then after construction a lookup of that designation, in any
    case, returns [O2], and every close approach of the input whose
    [_designation] matches it has [neo] set to [O2]. *)
Theorem last_write_wins (l1 l2 l3 apps : list loc) (h : heap) (O1 O2 : loc)
    (o1 o2 : NearEarthObject) :
  let nl := l1 ++ O1 :: l2 ++ O2 :: l3 in
  let h' := fst (__init__ nl apps h) in
  let self := snd (__init__ nl apps h) in
  neo_objs h !! O1 = Some o1 →
  neo_objs h !! O2 = Some o2 →
  lower (designation o1) = lower (designation o2) →
  Forall (fun n => des_key h n ≠ Some (lower (designation o2))) l3 →
  get_neo_by_designation self (PyStr (designation o1)) = Ok (Some O2) ∧
  get_neo_by_designation self (PyStr (designation o2)) = Ok (Some O2) ∧
  (∀ k, lower k = lower (designation o2) →
        get_neo_by_designation self (PyStr k) = Ok (Some O2)) ∧
  ∀ E c', E ∈ apps → ca_objs h' !! E = Some c' →
          lower (_designation c') = lower (designation o2) →
          neo c' = Some O2.
Proof.
  intros nl h' self Ho1 Ho2 Heq Hl3. rewrite Forall_forall in Hl3.
  assert (nl = (l1 ++ O1 :: l2) ++ O2 :: l3) as Hnl.
  { unfold nl. by rewrite <- app_assoc. }
  assert (∀ k, lower k = lower (designation o2) →
               get_neo_by_designation self (PyStr k) = Ok (Some O2)) as Hlook.
  { intros k Hk. unfold get_neo_by_designation, self. cbn [py_lower].
    destruct (init_indexes nl apps h) as [-> _]. rewrite Hk, Hnl.
    f_equal. apply build_last; [|done]. unfold des_key. by rewrite Ho2. }
  repeat split; auto.
  intros E c' HE Hc' Hkey. pose proof Hc' as (c & Hc & Hdes)%init_ca_key.
  unfold h' in Hc'. rewrite init_ca_objs, Hnl in Hc'.
  rewrite (owner_last h apps (l1 ++ O1 :: l2) O2 l3 E), Hc in Hc'.
  - by injection Hc' as <-.
  - apply elem_of_matched. split; [done|]. unfold matches.
    rewrite Ho2, Hc, Hdes. by apply bool_decide_eq_true.
  - intros m Hm [_ (o & c0 & Ho & Hc0 & Hk)%matches_Some]%elem_of_matched.
    apply (Hl3 m Hm). unfold des_key. rewrite Ho. simpl.
    rewrite Hc in Hc0. injection Hc0 as <-. congruence.
Qed.

Lemma last_write_wins_witness :
  get_neo_by_designation Sample.dbd (PyStr "2020 ab") = Ok (Some 11) ∧
  get_neo_by_designation Sample.dbd (PyStr "2020 AB") = Ok (Some 11) ∧
  (∀ k, lower k = "2020 ab" →
        get_neo_by_designation Sample.dbd (PyStr k) = Ok (Some 11)) ∧
  ∀ E c', E ∈ [20] → ca_objs Sample.hd1 !! E = Some c' →
          lower (_designation c') = "2020 ab" →
          neo c' = Some 11.
Proof.
  apply (last_write_wins [] [] [] [20] Sample.hd0 10 11 Sample.dup_a Sample.dup_b).
  - reflexivity.
  - reflexivity.
  - reflexivity.
  - compute_done.
Defined.

(** C9 (frame).  The constructor stores the two collections it was given, as
    given.  The store after construction has the same objects as before, each
    with its fields unchanged but for [approaches] on NEOs and [neo] on close
    approaches; a NEO outside the input collection is unchanged; a close
    approach that no round selects is unchanged; and a close approach whose
    [neo] did change is one of the input, set to a NEO of the input that
    matches it. *)
Theorem constructor_frame (nl apps : list loc) (h : heap) :
  let h' := fst (__init__ nl apps h) in
  let self := snd (__init__ nl apps h) in
  _neos self = nl ∧ _approaches self = apps ∧ neos self = nl ∧
  heap_frame h h' ∧
  (∀ n, n ∉ nl → neo_objs h' !! n = neo_objs h !! n) ∧
  (∀ a, (∀ n, n ∈ nl → a ∈ apps → matches h n a = false) →
        ca_objs h' !! a = ca_objs h !! a) ∧
  (∀ a c c', ca_objs h !! a = Some c → ca_objs h' !! a = Some c' →
             neo c' ≠ neo c →
             ∃ n, neo c' = Some n ∧ n ∈ nl ∧ a ∈ apps ∧ matches h n a = true).
Proof.
  intros h' self. repeat split; try apply link_frame.
  - intros n Hn. unfold h'. by rewrite init_neo_objs, decide_False.
  - intros a Ha. unfold h'. rewrite init_ca_objs.
    destruct (owner h apps nl a) as [n|] eqn:Hown; [|done].
    apply owner_Some in Hown as [Hn [Hin Hm]%elem_of_matched].
    rewrite Ha in Hm; done.
  - intros a c c' Hc Hc' Hne. unfold h' in Hc'. rewrite init_ca_objs, Hc in Hc'.
    destruct (owner h apps nl a) as [n|] eqn:Hown.
    + injection Hc' as <-. exists n.
      apply owner_Some in Hown as [Hn [Hin Hm]%elem_of_matched]. done.
    + injection Hc' as <-. done.
Qed.

Lemma constructor_frame_witness :
  _neos Sample.db = [10] ∧ _approaches Sample.db = [20; 21] ∧
  neos Sample.db = [10] ∧
  heap_frame Sample.h0 Sample.h1 ∧
  (∀ n, n ∉ [10] → neo_objs Sample.h1 !! n = neo_objs Sample.h0 !! n) ∧
  (∀ a, (∀ n, n ∈ [10] → a ∈ [20; 21] → matches Sample.h0 n a = false) →
        ca_objs Sample.h1 !! a = ca_objs Sample.h0 !! a) ∧
  (∀ a c c', ca_objs Sample.h0 !! a = Some c → ca_objs Sample.h1 !! a = Some c' →
             neo c' ≠ neo c →
             ∃ n, neo c' = Some n ∧ n ∈ [10] ∧ a ∈ [20; 21] ∧
                  matches Sample.h0 n a = true).
Proof. exact (constructor_frame [10] [20; 21] Sample.h0). Defined.

(** ** Lookups *)

(** C7, as the code has it.  Take input whose NEOs have pairwise distinct
    designations up to case and, among the named ones, pairwise distinct names
    up to case.  After construction, for every NEO of the input, looking up
    any string that lower-cases to what its designation lower-cases to
    returns that NEO; the upper-casing of the designation is such a string
    when the designation is ASCII.  And if the NEO's name is a non-empty
    string, looking up any string that lower-cases like the name, its
    lower-casing for one, returns that NEO. *)
Theorem index_case_insensitive (nl apps : list loc) (h : heap) (O : loc)
    (o' : NearEarthObject) :
  let h' := fst (__init__ nl apps h) in
  let self := snd (__init__ nl apps h) in
  NoDup (des_keys h nl) →
  NoDup (name_keys h nl) →
  O ∈ nl →
  neo_objs h' !! O = Some o' →
  (∀ k, lower k = lower (designation o') →
        get_neo_by_designation self (PyStr k) = Ok (Some O)) ∧
  (isascii (designation o') = true →
   ∃ u, upper (designation o') = Some u ∧
        get_neo_by_designation self (PyStr u) = Ok (Some O)) ∧
  ∀ s, name o' = Some s → s ≠ EmptyString →
       (∀ k, lower k = lower s → get_neo_by_name self (PyStr k) = Ok (Some O)) ∧
       get_neo_by_name self (PyStr (lower s)) = Ok (Some O).
Proof.
  intros h' self Hdes Hname HO Ho'.
  unfold h' in Ho'. rewrite init_neo_objs, decide_True in Ho' by done.
  destruct (neo_objs h !! O) as [o|] eqn:Ho; [|done]. injection Ho' as <-.
  cbn [set_approaches designation name].
  destruct (init_indexes nl apps h) as [Hbd Hbn].
  assert (∀ k, lower k = lower (designation o) →
               get_neo_by_designation self (PyStr k) = Ok (Some O)) as Hlook.
  { intros k Hk. unfold get_neo_by_designation, self. cbn [py_lower].
    rewrite Hbd, Hk. f_equal. apply build_NoDup; [done..|].
    unfold des_key. by rewrite Ho. }
  split; [done|]. split.
  { intros (u & Hu & Hlow)%upper_isascii. exists u. auto. }
  intros s Hs Hne.
  assert (∀ k, lower k = lower s →
               get_neo_by_name self (PyStr k) = Ok (Some O)) as Hlookn.
  { intros k Hk. unfold get_neo_by_name, self. cbn [py_lower].
    rewrite Hbn, Hk. f_equal. apply build_NoDup; [done..|].
    unfold name_key. rewrite Ho. simpl. rewrite Hs. simpl.
    by destruct s. }
  split; [done|]. apply Hlookn, lower_lower.
Qed.

Lemma index_case_insensitive_witness :
  (∀ k, lower k = "2021 cd" →
        get_neo_by_designation Cases.dbc (PyStr k) = Ok (Some 11)) ∧
  (isascii "2021 cd" = true →
   ∃ u, upper "2021 cd" = Some u ∧
        get_neo_by_designation Cases.dbc (PyStr u) = Ok (Some 11)) ∧
  ∀ s, Some "Ganymed" = Some s → s ≠ EmptyString →
       (∀ k, lower k = lower s → get_neo_by_name Cases.dbc (PyStr k) = Ok (Some 11)) ∧
       get_neo_by_name Cases.dbc (PyStr (lower s)) = Ok (Some 11).
Proof.
  apply (index_case_insensitive [10; 11] [20; 21; 22] Cases.hc0 11
           (set_approaches [22] Cases.ganymed)).
  - compute_done.
  - compute_done.
  - compute_done.
  - reflexivity.
Defined.

(** C7, as stated, fails.  For the catalogue of the one NEO with designation
    "ß1" the hypotheses hold, the upper-casing of the designation is "SS1",
    and looking that up misses: it lower-cases to "ss1", not to "ß1". *)
Lemma upper_lookup_misses :
  NoDup (des_keys Cases.hs0 [10]) ∧ NoDup (name_keys Cases.hs0 [10]) ∧
  10 ∈ [10] ∧ neo_objs Cases.hs1 !! 10 = Some Cases.neo_sharp ∧
  upper (designation Cases.neo_sharp) = Some "SS1" ∧
  get_neo_by_designation Cases.dbs (PyStr "SS1") = Ok None ∧
  get_neo_by_designation Cases.dbs (PyStr "SS1") ≠ Ok (Some 10).
Proof.
  split; [compute_done|]. split; [compute_done|]. split; [compute_done|].
  split; [reflexivity|]. split; [reflexivity|]. split; [reflexivity|discriminate].
Qed.

Lemma name_key_nonempty h n : name_key h n ≠ Some EmptyString.
Proof.
  unfold name_key. destruct (neo_objs h !! n) as [o|]; simpl; [|done].
  destruct (name o) as [[|c s]|]; simpl; done.
Qed.

(** A lookup with a string key does not raise. *)
Lemma lookup_str_total self s :
  get_neo_by_designation self (PyStr s) = Ok (neos_by_designation self !! lower s) ∧
  get_neo_by_name self (PyStr s) = Ok (neos_by_name self !! lower s).
Proof. done. Qed.

(** X21.  With a string for key the lookups do not raise.  Whatever the
    input, after construction [get_neo_by_name] with the empty string returns
    [None], and each lookup returns [None] when no NEO of the input is
    indexed under the lower-cased key. *)
Theorem lookup_miss_returns_None (nl apps : list loc) (h : heap) :
  let self := snd (__init__ nl apps h) in
  get_neo_by_name self (PyStr EmptyString) = Ok None ∧
  (∀ s, ∃ r, get_neo_by_name self (PyStr s) = Ok r) ∧
  (∀ s, ∃ r, get_neo_by_designation self (PyStr s) = Ok r) ∧
  (∀ s, Forall (fun n => name_key h n ≠ Some (lower s)) nl →
        get_neo_by_name self (PyStr s) = Ok None) ∧
  (∀ s, Forall (fun n => des_key h n ≠ Some (lower s)) nl →
        get_neo_by_designation self (PyStr s) = Ok None).
Proof.
  intros self. destruct (init_indexes nl apps h) as [Hbd Hbn].
  assert (∀ s, Forall (fun n => name_key h n ≠ Some (lower s)) nl →
               get_neo_by_name self (PyStr s) = Ok None) as Hmiss.
  { intros s Hs. rewrite Forall_forall in Hs.
    unfold get_neo_by_name, self. cbn [py_lower]. rewrite Hbn. f_equal.
    by apply build_miss. }
  repeat split; [| |eauto|done|].
  - apply Hmiss, Forall_forall. intros n _. apply name_key_nonempty.
  - intros s. eexists. apply lookup_str_total.
  - intros s Hs. rewrite Forall_forall in Hs.
    unfold get_neo_by_designation, self. cbn [py_lower]. rewrite Hbd. f_equal.
    by apply build_miss.
Qed.

Lemma lookup_miss_returns_None_witness :
  get_neo_by_name Sample.db (PyStr EmptyString) = Ok None ∧
  get_neo_by_name Sample.db (PyStr "Ceres") = Ok None ∧
  get_neo_by_designation Sample.db (PyStr "999") = Ok None.
Proof.
  destruct (lookup_miss_returns_None [10] [20; 21] Sample.h0)
    as (Hempty & _ & _ & Hname & Hdes).
  split; [exact Hempty|]. split.
  - apply Hname. compute_done.
  - apply Hdes. compute_done.
Defined.

(** C3 fails on the code.  On the sample catalogue [get_neo_by_name] returns
    [None] for the empty string, but called with [None] it raises
    AttributeError from [name.lower()] instead of returning [None], although
    its documentation promises [None] when no match is found and names the
    [None] singleton among the keys no NEO is associated with. *)
Theorem lookup_by_name_None_raises :
  get_neo_by_name Sample.db (PyStr EmptyString) = Ok None ∧
  get_neo_by_name Sample.db PyNone = Raise AttributeError ∧
  get_neo_by_name Sample.db PyNone ≠ Ok None.
Proof. split; [reflexivity|]. split; [reflexivity|discriminate]. Qed.

(** ** Queries *)

(** Given a list of filters, [query] yields, in the order of the backing
    collection, the close approaches of which all the filters hold. *)
Lemma query_list_and h self fs :
  to_list h (query self (PyList fs)) = List.filter (all_hold h fs) (_approaches self).
Proof.
  unfold to_list, query. cbn [g_rest g_filters]. rewrite collect_filter.
  apply List.filter_ext. intros a. apply yields_list.
Qed.

(** Given the empty list, [query] yields the whole backing collection. *)
Lemma query_empty_list h self :
  to_list h (query self (PyList [])) = _approaches self.
Proof. rewrite query_list_and. by apply filter_all, forallb_forall. Qed.

(** Given a tuple of filters, [query] yields nothing. *)
Lemma query_tuple_nothing h self fs : to_list h (query self (PyTuple fs)) = [].
Proof.
  unfold to_list, query. cbn [g_rest g_filters].
  induction (_approaches self) as [|a l IH]; cbn [collect]; [done|].
  by rewrite yields_tuple.
Qed.

(** A close approach that no NEO of the input matches comes out of the
    constructor as it went in, is in no [approaches] list of the input's
    NEOs, and is yielded by a query with the empty list of filters. *)
Lemma orphan_tolerated nl apps h E :
  let h' := fst (__init__ nl apps h) in
  let self := snd (__init__ nl apps h) in
  E ∈ apps →
  (∀ n, n ∈ nl → matches h n E = false) →
  ca_objs h' !! E = ca_objs h !! E ∧
  (∀ O o', O ∈ nl → neo_objs h' !! O = Some o' → E ∉ approaches o') ∧
  E ∈ to_list h' (query self (PyList [])).
Proof.
  intros h' self HE Horph. unfold h', self. repeat split.
  - rewrite init_ca_objs.
    destruct (owner h apps nl E) as [n|] eqn:Hown; [|done].
    apply owner_Some in Hown as [Hn [_ Hm]%elem_of_matched].
    rewrite Horph in Hm; done.
  - intros O o' HO Ho' Hin.
    rewrite init_neo_objs, decide_True in Ho' by done.
    destruct (neo_objs h !! O) as [o|]; [|done]. injection Ho' as <-.
    cbn [set_approaches approaches] in Hin.
    apply elem_of_matched in Hin as [_ Hm]. rewrite Horph in Hm; done.
  - by rewrite query_empty_list.
Qed.

(** C8 (restartable, deterministic).  Two calls of [query] with the same
    filters make two generators that yield the same close approaches in the
    same order, however far the first has been consumed when the second is
    made: the second yields what the first has yielded so far followed by
    what the first has left.  Once the first is spent, [next] on it stops
    while the second still yields everything. *)
Theorem query_restartable (h : heap) (self : NEODatabase.t) (filters : pyseq)
    (n : nat) :
  let g1 := query self filters in
  let yielded := fst (take_n h n g1) in
  let g1' := snd (take_n h n g1) in
  let g2 := query self filters in
  to_list h g2 = to_list h g1 ∧
  to_list h g2 = yielded ++ to_list h g1' ∧
  ((length (_approaches self) ≤ n)%nat →
   next h g1' = None ∧ to_list h g2 = yielded).
Proof.
  intros g1 yielded g1' g2. split; [done|]. split.
  - apply take_n_to_list.
  - intros Hn.
    assert (next h g1' = None) as Hstop by (by apply take_n_exhausts).
    split; [done|]. unfold g2. fold g1.
    rewrite (take_n_to_list h n g1). fold yielded g1'.
    by rewrite (to_list_next h g1'), Hstop, app_nil_r.
Qed.

Lemma query_restartable_witness :
  let g1 := query Sample.db (PyList [Sample.always]) in
  let g2 := query Sample.db (PyList [Sample.always]) in
  to_list Sample.h1 g2 = to_list Sample.h1 g1 ∧
  to_list Sample.h1 g2 = [20; 21] ++ [] ∧
  ((2 ≤ 2)%nat →
   next Sample.h1 {| g_rest := []; g_filters := PyList [Sample.always] |} = None ∧
   to_list Sample.h1 g2 = [20; 21]).
Proof. exact (query_restartable Sample.h1 Sample.db (PyList [Sample.always]) 2). Defined.

(** C1 fails on the code.  Called with its default argument, the empty
    tuple, [query] yields nothing, whereas the backing collection of the
    sample catalogue holds two close approaches. *)
Theorem query_default_yields_nothing :
  _approaches Sample.db = [20; 21] ∧
  to_list Sample.h1 (query Sample.db (PyTuple [])) = [].
Proof. split; reflexivity. Qed.

(** C2 fails on the code.  Given the one-element tuple of a filter that
    holds of every close approach, [query] yields nothing, although the
    filter holds of close approach 20 of the backing collection. *)
Theorem query_tuple_drops_matching :
  20 ∈ _approaches Sample.db ∧
  all_hold Sample.h1 [Sample.always] 20 = true ∧
  to_list Sample.h1 (query Sample.db (PyTuple [Sample.always])) = [].
Proof. split; [compute_done|]. split; reflexivity. Qed.

(** C6 fails on the code in its last part.  Close approach 21 of the sample
    catalogue matches no NEO; it keeps a null [neo] and is in no
    [approaches] list, but the query with no filters, [query(())], does not
    yield it. *)
Theorem orphan_not_yielded_by_default_query :
  (∀ n, n ∈ [10] → matches Sample.h0 n 21 = false) ∧
  ca_objs Sample.h1 !! 21 ≫= neo = None ∧
  (∀ O o', O ∈ [10] → neo_objs Sample.h1 !! O = Some o' → 21 ∉ approaches o') ∧
  21 ∈ _approaches Sample.db ∧
  21 ∉ to_list Sample.h1 (query Sample.db (PyTuple [])).
Proof.
  assert (∀ n, n ∈ [10] → matches Sample.h0 n 21 = false) as Horph.
  { intros n ->%list_elem_of_singleton. reflexivity. }
  split; [done|]. split; [reflexivity|]. split; [|split].
  - apply (orphan_tolerated [10] [20; 21] Sample.h0 21); [compute_done|done].
  - compute_done.
  - rewrite query_tuple_nothing. apply not_elem_of_nil.
Qed.

(** * Further properties of [database.py] *)

(** ** Queries with a list of filters *)

Lemma all_hold_iff h fs a :
  all_hold h fs a = true ↔ ∀ fil, fil ∈ fs → fcall fil h a = true.
Proof.
  unfold all_hold. rewrite forallb_forall. split.
  - intros H fil Hin. by apply H, list_elem_of_In.
  - intros H fil Hin. by apply H, list_elem_of_In.
Qed.

Lemma all_hold_app h fs1 fs2 a :
  all_hold h (fs1 ++ fs2) a = all_hold h fs1 a && all_hold h fs2 a.
Proof. unfold all_hold. apply forallb_app. Qed.

Lemma filter_filter_and {A} (p q : A → bool) l :
  List.filter q (List.filter p l) = List.filter (fun x => p x && q x) l.
Proof.
  induction l as [|x l IH]; simpl; [done|].
  destruct (p x); simpl; [|done]. destruct (q x); by rewrite IH.
Qed.

Lemma filter_sublist {A} (p : A → bool) l : List.filter p l `sublist_of` l.
Proof.
  induction l as [|x l IH]; simpl; [constructor|].
  destruct (p x); by constructor.
Qed.

(** X1.  Given a list of filters, [query] yields the backing collection
    filtered, in its order, by "every filter of the list holds": a close
    approach is yielded exactly when it is in the collection and every
    filter returns true on it. *)
Theorem query_list_selects (h : heap) (self : NEODatabase.t)
    (fs : list AttributeFilter) :
  to_list h (query self (PyList fs)) =
    List.filter (all_hold h fs) (_approaches self) ∧
  ∀ E, E ∈ to_list h (query self (PyList fs)) ↔
       E ∈ _approaches self ∧ ∀ fil, fil ∈ fs → fcall fil h E = true.
Proof.
  split; [apply query_list_and|]. intros E.
  rewrite query_list_and, list_elem_of_In, List.filter_In, <- list_elem_of_In.
  by rewrite all_hold_iff.
Qed.

(** X2.  Given a tuple of filters, of any length and whatever the filters
    return, [query] yields nothing: the first [next] already stops. *)
Theorem query_tuple_selects_nothing (h : heap) (self : NEODatabase.t)
    (fs : list AttributeFilter) :
  next h (query self (PyTuple fs)) = None ∧
  to_list h (query self (PyTuple fs)) = [].
Proof.
  split; [|apply query_tuple_nothing].
  pose proof (to_list_next h (query self (PyTuple fs))) as Hn.
  rewrite query_tuple_nothing in Hn.
  by destruct (next h (query self (PyTuple fs))) as [[??]|].
Qed.

(** X3.  Filters compose by conjunction: querying with the list [fs1 + fs2]
    yields what filtering the result of the query with [fs1] by the filters
    of [fs2] gives. *)
Theorem query_list_app (h : heap) (self : NEODatabase.t)
    (fs1 fs2 : list AttributeFilter) :
  to_list h (query self (PyList (fs1 ++ fs2))) =
  List.filter (all_hold h fs2) (to_list h (query self (PyList fs1))).
Proof.
  rewrite !query_list_and, filter_filter_and.
  apply List.filter_ext. intros a. apply all_hold_app.
Qed.

(** X4.  Whatever the collection of filters, what [query] yields is a
    subsequence of the backing collection: nothing from outside it, nothing
    out of order, nothing more often than it occurs there. *)
Theorem query_sublist (h : heap) (self : NEODatabase.t) (filters : pyseq) :
  to_list h (query self filters) `sublist_of` _approaches self.
Proof.
  unfold to_list, query. cbn [g_rest g_filters]. rewrite collect_filter.
  apply filter_sublist.
Qed.

(** X5.  The order of the filters in the list does not matter: two lists
    that are permutations of each other select the same close approaches. *)
Theorem query_list_permutation (h : heap) (self : NEODatabase.t)
    (fs fs' : list AttributeFilter) :
  fs ≡ₚ fs' →
  to_list h (query self (PyList fs)) = to_list h (query self (PyList fs')).
Proof.
  intros Hp. rewrite !query_list_and. apply List.filter_ext. intros a.
  apply eq_true_iff_eq. rewrite !all_hold_iff.
  split; intros H fil Hin; apply H; [by rewrite Hp|by rewrite <- Hp].
Qed.

(** ** Lookups that hit *)

Lemma build_Some key l k n :
  build key l !! k = Some n → n ∈ l ∧ key n = Some k.
Proof.
  induction l as [|x l IH] using rev_ind; [done|].
  rewrite build_snoc. intros Hk.
  assert (build key l !! k = Some n → n ∈ l ++ [x] ∧ key n = Some k) as Hl.
  { intros [??]%IH. split; [|done]. apply elem_of_app. by left. }
  destruct (key x) as [k'|] eqn:Hx; [|auto].
  destruct (decide (k' = k)) as [->|Hne].
  - rewrite lookup_insert_eq in Hk. injection Hk as <-.
    split; [|done]. apply elem_of_app. right. by left.
  - rewrite lookup_insert_ne in Hk by done. auto.
Qed.

Lemma build_hit key l k n :
  n ∈ l → key n = Some k → is_Some (build key l !! k).
Proof.
  induction l as [|x l IH] using rev_ind; intros Hin Hn.
  - by apply elem_of_nil in Hin.
  - rewrite build_snoc. destruct (key x) as [k'|] eqn:Hx.
    + destruct (decide (k' = k)) as [->|Hne].
      * rewrite lookup_insert_eq. eauto.
      * rewrite lookup_insert_ne by done.
        apply elem_of_app in Hin as [Hin|Hin%list_elem_of_singleton]; [auto|].
        congruence.
    + apply elem_of_app in Hin as [Hin|Hin%list_elem_of_singleton]; [auto|].
      congruence.
Qed.

Lemma owner_hit h apps l a n :
  n ∈ l → a ∈ matched h apps n → is_Some (owner h apps l a).
Proof.
  induction l as [|x l IH] using rev_ind; intros Hin Hn.
  - by apply elem_of_nil in Hin.
  - rewrite owner_snoc. case_bool_decide as Hx; [eauto|].
    apply elem_of_app in Hin as [Hin|Hin%list_elem_of_singleton]; [auto|].
    congruence.
Qed.

Lemma init_designation_hit nl apps h k O :
  get_neo_by_designation (snd (__init__ nl apps h)) (PyStr k) = Ok (Some O) →
  O ∈ nl ∧
  ∃ o', neo_objs (fst (__init__ nl apps h)) !! O = Some o' ∧
        lower (designation o') = lower k.
Proof.
  intros Hget. unfold get_neo_by_designation in Hget.
  cbn [py_lower] in Hget. destruct (init_indexes nl apps h) as [Hbd _].
  rewrite Hbd in Hget. injection Hget as Hget.
  apply build_Some in Hget as [HO Hkey]. split; [done|].
  unfold des_key in Hkey. destruct (neo_objs h !! O) as [o|] eqn:Ho; [|done].
  injection Hkey as Hkey. exists (set_approaches (matched h apps O) o).
  by rewrite init_neo_objs, decide_True, Ho.
Qed.

(** X6.  A hit of [get_neo_by_designation] is a NEO of the collection the
    database was built from, and its designation equals the key up to
    case. *)
Theorem designation_hit_sound (nl apps : list loc) (h : heap) (k : string)
    (O : loc) :
  let h' := fst (__init__ nl apps h) in
  let self := snd (__init__ nl apps h) in
  get_neo_by_designation self (PyStr k) = Ok (Some O) →
  O ∈ nl ∧
  ∃ o', neo_objs h' !! O = Some o' ∧ lower (designation o') = lower k.
Proof. intros h' self. apply init_designation_hit. Qed.

(** X7.  A hit of [get_neo_by_name] is a NEO of the collection the database
    was built from, it has a name, the name is not the empty string, and it
    equals the key up to case: a NEO without a name is never returned. *)
Theorem name_hit_sound (nl apps : list loc) (h : heap) (k : string) (O : loc) :
  let h' := fst (__init__ nl apps h) in
  let self := snd (__init__ nl apps h) in
  get_neo_by_name self (PyStr k) = Ok (Some O) →
  O ∈ nl ∧
  ∃ o' s, neo_objs h' !! O = Some o' ∧ name o' = Some s ∧
          s ≠ EmptyString ∧ lower s = lower k.
Proof.
  intros h' self Hget. unfold get_neo_by_name, self in Hget.
  cbn [py_lower] in Hget. destruct (init_indexes nl apps h) as [_ Hbn].
  rewrite Hbn in Hget. injection Hget as Hget.
  apply build_Some in Hget as [HO Hkey]. split; [done|].
  unfold name_key in Hkey. destruct (neo_objs h !! O) as [o|] eqn:Ho; [|done].
  simpl in Hkey. destruct (name o) as [s|] eqn:Hs; [|done]. simpl in Hkey.
  destruct (str_truthy s) eqn:Ht; [|done]. injection Hkey as Hkey.
  exists (set_approaches (matched h apps O) o), s.
  unfold h'. rewrite init_neo_objs, decide_True, Ho by done.
  repeat split; [done..| |done]. by intros ->.
Qed.

(** X8.  The designation index is total, also when designations repeat: for
    every NEO of the input, looking up its designation returns a NEO of the
    input with the same designation up to case. *)
Theorem designation_lookup_never_misses (nl apps : list loc) (h : heap)
    (O : loc) (o' : NearEarthObject) :
  let h' := fst (__init__ nl apps h) in
  let self := snd (__init__ nl apps h) in
  O ∈ nl →
  neo_objs h' !! O = Some o' →
  ∃ O2 o2, get_neo_by_designation self (PyStr (designation o')) = Ok (Some O2) ∧
           O2 ∈ nl ∧ neo_objs h' !! O2 = Some o2 ∧
           lower (designation o2) = lower (designation o').
Proof.
  intros h' self HO Ho'. unfold h' in Ho'.
  rewrite init_neo_objs, decide_True in Ho' by done.
  destruct (neo_objs h !! O) as [o|] eqn:Ho; [|done]. injection Ho' as <-.
  cbn [set_approaches designation].
  destruct (build_hit (des_key h) nl (lower (designation o)) O) as [O2 HO2].
  { done. } { unfold des_key. by rewrite Ho. }
  assert (get_neo_by_designation self (PyStr (designation o)) = Ok (Some O2))
    as Hget.
  { unfold get_neo_by_designation, self. cbn [py_lower].
    destruct (init_indexes nl apps h) as [-> _]. by rewrite HO2. }
  destruct (init_designation_hit nl apps h (designation o) O2 Hget)
    as (Hin & o2 & Ho2 & Hd).
  eauto 10.
Qed.

(** ** Linking, beyond the claims *)

Lemma init_neo_inv nl apps h O o' :
  O ∈ nl →
  neo_objs (fst (__init__ nl apps h)) !! O = Some o' →
  ∃ o, neo_objs h !! O = Some o ∧ designation o = designation o' ∧
       approaches o' = matched h apps O.
Proof.
  intros HO Ho'. rewrite init_neo_objs, decide_True in Ho' by done.
  destruct (neo_objs h !! O) as [o|]; [|done]. injection Ho' as <-. eauto.
Qed.

(** X9.  A close approach of the input whose [_designation] equals, up to
    case, the designation of a NEO of the input is in that NEO's
    [approaches] after construction, and its [neo] is set: to a NEO of the
    input with such a designation that also lists it. *)
Theorem matching_approach_linked (nl apps : list loc) (h : heap) (E O : loc)
    (o' : NearEarthObject) (c' : CloseApproach) :
  let h' := fst (__init__ nl apps h) in
  E ∈ apps →
  O ∈ nl →
  neo_objs h' !! O = Some o' →
  ca_objs h' !! E = Some c' →
  lower (_designation c') = lower (designation o') →
  E ∈ approaches o' ∧
  ∃ O2 o2, neo c' = Some O2 ∧ O2 ∈ nl ∧ neo_objs h' !! O2 = Some o2 ∧
           lower (designation o2) = lower (_designation c') ∧
           E ∈ approaches o2.
Proof.
  intros h' HE HO Ho' Hc' Hkey. unfold h' in *.
  pose proof Ho' as (o & Ho & Hdes & Happ)%init_neo_inv; [|done].
  pose proof Hc' as (c & Hc & Hk)%init_ca_key.
  assert (E ∈ matched h apps O) as Hm.
  { apply elem_of_matched. split; [done|]. unfold matches.
    rewrite Ho, Hc, Hdes, Hk. by apply bool_decide_eq_true. }
  split; [by rewrite Happ|].
  destruct (owner_hit h apps nl E O HO Hm) as [O2 Hown].
  rewrite init_ca_objs, Hown, Hc in Hc'. injection Hc' as <-.
  apply owner_Some in Hown as [HO2 Hm2].
  pose proof Hm2 as [_ (o2 & c2 & Ho2 & Hc2 & Hk2)%matches_Some]%elem_of_matched.
  rewrite Hc in Hc2. injection Hc2 as <-.
  exists O2, (set_approaches (matched h apps O2) o2).
  rewrite init_neo_objs, decide_True, Ho2 by done. done.
Qed.

(** X10.  When the designations of the input's NEOs are pairwise distinct up
    to case, no close approach is in the [approaches] of two of them. *)
Theorem approaches_disjoint (nl apps : list loc) (h : heap) (E O1 O2 : loc)
    (o1 o2 : NearEarthObject) :
  let h' := fst (__init__ nl apps h) in
  NoDup (des_keys h nl) →
  O1 ∈ nl → O2 ∈ nl →
  neo_objs h' !! O1 = Some o1 →
  neo_objs h' !! O2 = Some o2 →
  E ∈ approaches o1 → E ∈ approaches o2 →
  O1 = O2.
Proof.
  intros h' Hnd HO1 HO2 Ho1 Ho2 HE1 HE2. unfold h' in *.
  apply init_neo_inv in Ho1 as (i1 & Hi1 & _ & Ha1); [|done].
  apply init_neo_inv in Ho2 as (i2 & Hi2 & _ & Ha2); [|done].
  rewrite Ha1 in HE1. rewrite Ha2 in HE2.
  apply elem_of_matched in HE1 as [_ (x1 & c1 & Hx1 & Hc1 & Hk1)%matches_Some].
  apply elem_of_matched in HE2 as [_ (x2 & c2 & Hx2 & Hc2 & Hk2)%matches_Some].
  rewrite Hc1 in Hc2. injection Hc2 as <-.
  apply (build_key_inj (des_key h) nl (lower (_designation c1))); [done..| |];
    unfold des_key.
  - rewrite Hx1. simpl. congruence.
  - rewrite Hx2. simpl. congruence.
Qed.

Lemma matched_frame h h' apps n :
  heap_frame h h' → matched h' apps n = matched h apps n.
Proof. apply filter_matches_frame. Qed.

Lemma owner_frame h h' apps l a :
  heap_frame h h' → owner h' apps l a = owner h apps l a.
Proof.
  intros Hf. induction l as [|x l IH] using rev_ind; [done|].
  by rewrite !owner_snoc, IH, (matched_frame h h').
Qed.

Lemma link_idempotent nl apps h :
  link nl apps (link nl apps h) = link nl apps h.
Proof.
  pose proof (link_frame nl apps h) as Hf.
  assert (neo_objs (link nl apps (link nl apps h)) = neo_objs (link nl apps h))
    as Hn.
  { apply map_eq. intros n. rewrite (link_neo_objs nl apps (link nl apps h)).
    rewrite (matched_frame h) by done. rewrite link_neo_objs.
    case_decide; [|done]. by destruct (neo_objs h !! n). }
  assert (ca_objs (link nl apps (link nl apps h)) = ca_objs (link nl apps h))
    as Hc.
  { apply map_eq. intros a. rewrite (link_ca_objs nl apps (link nl apps h)).
    rewrite (owner_frame h) by done. rewrite link_ca_objs.
    destruct (owner h apps nl a); [|done]. by destruct (ca_objs h !! a). }
  destruct (link nl apps (link nl apps h)), (link nl apps h). simpl in *.
  by subst.
Qed.

(** X11.  Building a database again from the same collections, now linked,
    changes nothing: the store and the database are those of the first
    construction. *)
Theorem init_idempotent (nl apps : list loc) (h : heap) :
  __init__ nl apps (fst (__init__ nl apps h)) = __init__ nl apps h.
Proof. unfold __init__. cbn [fst]. by rewrite link_idempotent. Qed.

(** X12.  The two indexes do not depend on the close approaches: databases
    built from the same NEOs and two collections of close approaches answer
    every lookup alike. *)
Theorem lookups_independent_of_approaches (nl apps apps' : list loc)
    (h : heap) (key : pyval) :
  get_neo_by_designation (snd (__init__ nl apps h)) key =
    get_neo_by_designation (snd (__init__ nl apps' h)) key ∧
  get_neo_by_name (snd (__init__ nl apps h)) key =
    get_neo_by_name (snd (__init__ nl apps' h)) key.
Proof.
  unfold get_neo_by_designation, get_neo_by_name.
  destruct (init_indexes nl apps h) as [-> ->].
  destruct (init_indexes nl apps' h) as [-> ->]. done.
Qed.

(** * Properties of [extract.py] *)

(** ** [load_neos] *)

Section load_neos_facts.

Context {T : Type}.
Variable py_float : string → option float.
Variable NearEarthObject_new : neo_args → outcome T.

#[local] Abbreviation load := (load_neos py_float NearEarthObject_new).
#[local] Abbreviation step := (load_neos_step py_float NearEarthObject_new).

Lemma load_neos_foldl (st : list T * list exception) (reader : list csv_row) :
  foldl step st reader =
  (fst st ++ fst (load reader), snd st ++ snd (load reader)).
Proof.
  revert st. induction reader as [|row reader IH]; intros st.
  - simpl. rewrite !app_nil_r. by destruct st.
  - unfold load_neos. cbn [foldl]. rewrite !IH. unfold load_neos_step.
    destruct (neo_of_row _ _ row); cbn [fst snd]; by rewrite <- ?app_assoc.
Qed.

Lemma load_neos_app_eq (r1 r2 : list csv_row) :
  load (r1 ++ r2) =
  (fst (load r1) ++ fst (load r2), snd (load r1) ++ snd (load r2)).
Proof.
  unfold load_neos at 1. rewrite foldl_app. fold (load r1).
  apply load_neos_foldl.
Qed.

Lemma load_neos_one (row : csv_row) :
  load [row] =
  match neo_of_row py_float NearEarthObject_new row with
  | Returns neo => ([neo], [])
  | Raises e => ([], [e])
  end.
Proof.
  unfold load_neos. cbn [foldl]. unfold load_neos_step.
  by destruct (neo_of_row _ _ row).
Qed.

Lemma load_neos_cons (row : csv_row) (reader : list csv_row) :
  load (row :: reader) =
  (fst (load [row]) ++ fst (load reader), snd (load [row]) ++ snd (load reader)).
Proof. apply (load_neos_app_eq [row] reader). Qed.

Lemma load_neos_elem (reader : list csv_row) (t : T) :
  t ∈ fst (load reader) →
  ∃ row, row ∈ reader ∧ neo_of_row py_float NearEarthObject_new row = Returns t.
Proof.
  induction reader as [|row reader IH]; [by intros ?%elem_of_nil|].
  rewrite load_neos_cons, load_neos_one. cbn [fst].
  intros [Hin|Hin]%elem_of_app.
  - exists row. split; [by left|].
    destruct (neo_of_row _ _ row) as [neo|e]; cbn [fst] in Hin.
    + by apply list_elem_of_singleton in Hin as ->.
    + by apply elem_of_nil in Hin.
  - destruct (IH Hin) as (row' & Hrow & Hneo). exists row'. split; [by right|done].
Qed.

Lemma neo_args_of_row_inv (row : csv_row) (args : neo_args) :
  neo_args_of_row py_float row = Returns args →
  ∃ d n p,
    row !! "diameter" = Some d ∧ row !! "name" = Some n ∧
    row !! "pha" = Some p ∧ row !! "pdes" = Some (arg_pdes args) ∧
    arg_name args = (if truthy n then n else PyNone) ∧
    arg_pha args = negb (in_N_or_empty p) ∧
    (if truthy d then float_of py_float d = Returns (arg_diameter args)
     else arg_diameter args = nan).
Proof.
  unfold neo_args_of_row, getitem.
  destruct (row !! "diameter") as [d|]; [|done]. cbn [mbind outcome_bind].
  destruct (truthy d) eqn:Hd.
  - destruct (float_of py_float d) as [x|] eqn:Hx; [|done].
    cbn [mbind outcome_bind].
    destruct (row !! "name") as [n|]; [|done]. cbn [mbind outcome_bind].
    destruct (row !! "pha") as [p|]; [|done]. cbn [mbind outcome_bind].
    destruct (row !! "pdes") as [pdes|]; [|done]. cbn [mbind outcome_bind].
    intros [= <-]. exists d, n, p. rewrite Hd. done.
  - cbn [mbind outcome_bind].
    destruct (row !! "name") as [n|]; [|done]. cbn [mbind outcome_bind].
    destruct (row !! "pha") as [p|]; [|done]. cbn [mbind outcome_bind].
    destruct (row !! "pdes") as [pdes|]; [|done]. cbn [mbind outcome_bind].
    intros [= <-]. exists d, n, p. rewrite Hd. done.
Qed.

(** X13.  The rows are loaded independently of each other: loading two
    sequences of rows one after the other returns the objects of the first
    followed by those of the second, and prints the messages of the first
    followed by those of the second. *)
Theorem load_neos_rows_independent (r1 r2 : list csv_row) :
  load_neos py_float NearEarthObject_new (r1 ++ r2) =
  (fst (load_neos py_float NearEarthObject_new r1) ++
   fst (load_neos py_float NearEarthObject_new r2),
   snd (load_neos py_float NearEarthObject_new r1) ++
   snd (load_neos py_float NearEarthObject_new r2)).
Proof. apply load_neos_app_eq. Qed.

(** X14.  Every row gives one object or one printed exception, never both
    and never neither: the objects returned and the messages printed add up
    to the number of rows. *)
Theorem load_neos_accounting (reader : list csv_row) :
  (length (fst (load_neos py_float NearEarthObject_new reader)) +
   length (snd (load_neos py_float NearEarthObject_new reader)) =
   length reader)%nat.
Proof.
  induction reader as [|row reader IH]; [done|].
  rewrite load_neos_cons, load_neos_one. cbn [fst snd].
  rewrite !length_app. cbn [length].
  destruct (neo_of_row _ _ row); cbn [fst snd length]; lia.
Qed.

(** X15.  Every object that [load_neos] returns was constructed from a row
    of the reader that has the four columns, with these arguments: [pdes] is
    the row's field; [name] is the row's field when that is a non-empty
    string, and [None] when it is the empty string or [None]; [pha] is false
    exactly when the row's field is ['N'] or the empty string; [diameter] is
    [float] of the field when that is a non-empty string, and NaN when it is
    the empty string or [None]. *)
Theorem loaded_neo_arguments (reader : list csv_row) (t : T) :
  t ∈ fst (load_neos py_float NearEarthObject_new reader) →
  ∃ row args d n p,
    row ∈ reader ∧ NearEarthObject_new args = Returns t ∧
    row !! "pdes" = Some (arg_pdes args) ∧
    row !! "name" = Some n ∧ row !! "pha" = Some p ∧
    row !! "diameter" = Some d ∧
    (∀ s, n = PyStr s → s ≠ EmptyString → arg_name args = PyStr s) ∧
    (n = PyNone ∨ n = PyStr EmptyString → arg_name args = PyNone) ∧
    (arg_pha args = false ↔ p = PyStr "N" ∨ p = PyStr EmptyString) ∧
    (∀ s, d = PyStr s → s ≠ EmptyString →
          py_float s = Some (arg_diameter args)) ∧
    (d = PyNone ∨ d = PyStr EmptyString → arg_diameter args = nan).
Proof.
  intros (row & Hrow & Hneo)%load_neos_elem. unfold neo_of_row in Hneo.
  destruct (neo_args_of_row py_float row) as [args|] eqn:Hargs; [|done].
  cbn [mbind outcome_bind] in Hneo.
  apply neo_args_of_row_inv in Hargs
    as (d & n & p & Hd & Hn & Hp & Hpdes & Hname & Hpha & Hdiam).
  exists row, args, d, n, p. repeat split; try done.
  - intros s -> Hne. rewrite Hname. by destruct s.
  - intros [->| ->]; by rewrite Hname.
  - rewrite Hpha. destruct p as [|s]; cbn [in_N_or_empty negb]; [done|].
    intros [Hs|Hs]%negb_false_iff%orb_true_iff.
    + left. by apply bool_decide_eq_true in Hs as ->.
    + right. by apply bool_decide_eq_true in Hs as ->.
  - rewrite Hpha. intros [->| ->]; done.
  - intros s -> Hne. destruct s as [|c s]; [done|].
    cbn [truthy str_truthy float_of] in Hdiam.
    destruct (py_float (String c s)); congruence.
  - intros [->| ->]; done.
Qed.

(** X16.  A row that lacks one of the four columns, or whose diameter is a
    non-empty string that [float] rejects, is left out and reported: the
    objects are those of the rows around it, and exactly one message is
    printed for it, between theirs. *)
Theorem load_neos_skips_bad_row (r1 r2 : list csv_row) (row : csv_row) :
  (row !! "diameter" = None ∨ row !! "name" = None ∨ row !! "pha" = None ∨
   row !! "pdes" = None ∨
   ∃ s, row !! "diameter" = Some (PyStr s) ∧ s ≠ EmptyString ∧ py_float s = None) →
  ∃ e, load_neos py_float NearEarthObject_new (r1 ++ row :: r2) =
       (fst (load_neos py_float NearEarthObject_new r1) ++
        fst (load_neos py_float NearEarthObject_new r2),
        snd (load_neos py_float NearEarthObject_new r1) ++
        e :: snd (load_neos py_float NearEarthObject_new r2)).
Proof.
  intros Hbad.
  assert (∃ e, neo_of_row py_float NearEarthObject_new row = Raises e)
    as [e He].
  { unfold neo_of_row.
    destruct (neo_args_of_row py_float row) as [args|e] eqn:Hargs; [|eauto].
    exfalso. apply neo_args_of_row_inv in Hargs
      as (d & n & p & Hd & Hn & Hp & Hpdes & _ & _ & Hdiam).
    destruct Hbad as [?|[?|[?|[?|(s & Hs & Hne & Hf)]]]]; try congruence.
    rewrite Hd in Hs. injection Hs as ->. destruct s as [|c s]; [done|].
    cbn [truthy str_truthy float_of] in Hdiam. by rewrite Hf in Hdiam. }
  exists e.
  rewrite load_neos_app_eq, load_neos_cons, load_neos_one, He. done.
Qed.

End load_neos_facts.

(** ** [load_approaches] *)

(** The dict that [dict(zip(names, vs))] is when the names are strings. *)
Lemma dict_of_strings (ps : list (string * json)) (d : gmap string json) :
  dict_of (map (fun kv => (JStr (fst kv), snd kv)) ps) d =
  Returns (foldl (fun m kv => <[fst kv := snd kv]> m) d ps).
Proof.
  revert d. induction ps as [|[k v] ps IH]; intros d; [done|].
  cbn [map dict_of fst snd hashable foldl]. apply IH.
Qed.

Lemma zip_map_JStr (names : list string) (vs : list json) :
  zip (map JStr names) vs = map (fun kv => (JStr (fst kv), snd kv)) (zip names vs).
Proof.
  revert vs. induction names as [|k names IH]; intros [|v vs]; simpl; [done..|].
  by rewrite IH.
Qed.

Lemma zip_dict_strings (names : list string) (vs : list json) :
  zip_dict (JList (map JStr names)) (JList vs) =
  Returns (foldl (fun m kv => <[fst kv := snd kv]> m) ∅ (zip names vs)).
Proof.
  unfold zip_dict. cbn [iterate mbind outcome_bind].
  rewrite zip_map_JStr. apply dict_of_strings.
Qed.

Lemma foldl_insert_notin (ps : list (string * json)) (d : gmap string json) k :
  k ∉ ps.*1 →
  foldl (fun m kv => <[fst kv := snd kv]> m) d ps !! k = d !! k.
Proof.
  revert d. induction ps as [|[k' v'] ps IH]; intros d Hk; [done|].
  cbn [foldl fst snd]. rewrite fmap_cons in Hk. cbn [fst] in Hk.
  apply not_elem_of_cons in Hk as [Hne Hk].
  rewrite IH by done. by rewrite lookup_insert_ne.
Qed.

Lemma foldl_insert_lookup (names : list string) (vs : list json)
    (d : gmap string json) i k :
  NoDup names → names !! i = Some k →
  foldl (fun m kv => <[fst kv := snd kv]> m) d (zip names vs) !! k = 
  match vs !! i with Some v => Some v | None => d !! k end.
Proof.
  revert vs d i. induction names as [|k' names IH]; intros vs d i Hnd Hi; [done|].
  apply NoDup_cons in Hnd as [Hk' Hnd].
  destruct vs as [|v vs].
  { by destruct names. }
  cbn [zip zip_with foldl fst snd]. destruct i as [|i].
  - injection Hi as ->. cbn [lookup]. simpl.
    rewrite foldl_insert_notin; [apply lookup_insert_eq|].
    intros Hin. apply Hk'. apply list_elem_of_fmap in Hin as ([k2 v2] & -> & Hin).
    apply elem_of_zip_l in Hin. done.
  - simpl in Hi. rewrite (IH vs _ i) by done. simpl.
    destruct (vs !! i); [done|]. rewrite lookup_insert_ne; [done|].
    intros ->. apply Hk'. by eapply list_elem_of_lookup_2.
Qed.

Lemma zip_dict_lookup (names : list string) (vs : list json) (i : nat)
    (k : string) (d : gmap string json) :
  NoDup names →
  names !! i = Some k →
  zip_dict (JList (map JStr names)) (JList vs) = Returns d →
  d !! k = vs !! i.
Proof.
  intros Hnd Hi. rewrite zip_dict_strings. intros [= <-].
  rewrite (foldl_insert_lookup names vs ∅ i k) by done.
  by destruct (vs !! i).
Qed.

(** X17.  What [dict(zip(fields, ele))] holds when the field names are
    distinct strings and the row is a list: under the [i]-th field name, the
    [i]-th value of the row; and nothing under a field name that the row is
    too short to reach. *)
Theorem zip_dict_positional (names : list string) (vs : list json) (i : nat)
    (k : string) :
  NoDup names →
  names !! i = Some k →
  ∃ d, zip_dict (JList (map JStr names)) (JList vs) = Returns d ∧
       d !! k = vs !! i.
Proof.
  intros Hnd Hi. eexists. split; [apply zip_dict_strings|].
  eapply zip_dict_lookup; [done..|]. apply zip_dict_strings.
Qed.

Section load_approaches_facts.

Context {T : Type}.
Variable CloseApproach_new : approach_args → outcome T.

(** X18.  The two top-level keys are not treated alike.  Without ['data']
    the call raises KeyError before printing anything; with an empty
    ['data'] list it returns the empty list, whether or not there are
    ['fields']; with a non-empty ['data'] list and no ['fields'] it raises
    KeyError, which the [try] around the constructor does not catch. *)
Theorem load_approaches_top_level_keys (items : list (string * json)) :
  (assoc "data" items = None →
   load_approaches CloseApproach_new (JDict items) = (Raises (KeyError "data"), [])) ∧
  (assoc "data" items = Some (JList []) →
   load_approaches CloseApproach_new (JDict items) = (Returns [], [])) ∧
  (∀ ele rest, assoc "data" items = Some (JList (ele :: rest)) →
               assoc "fields" items = None →
               load_approaches CloseApproach_new (JDict items) = (Raises (KeyError "fields"), [])).
Proof.
  unfold load_approaches, subscript. repeat split.
  - by intros ->.
  - by intros ->.
  - intros ele rest -> Hf. cbn [mbind outcome_bind iterate load_approaches_loop].
    unfold subscript. by rewrite Hf.
Qed.

(** The loop on rows that are lists, under field names that are strings. *)
Lemma load_approaches_loop_lists (cad_data : json) (names : list string)
    (rows : list (list json)) (cad0 : list T) (out0 : list exception) :
  subscript cad_data "fields" = Returns (JList (map JStr names)) →
  ∃ cad out,
    load_approaches_loop CloseApproach_new cad_data (map JList rows) cad0 out0 =
      (Returns cad, out) ∧
    (length cad + length out = length cad0 + length out0 + length rows)%nat ∧
    ∀ t, t ∈ cad →
         t ∈ cad0 ∨
         ∃ vs d, vs ∈ rows ∧
                 zip_dict (JList (map JStr names)) (JList vs) = Returns d ∧
                 approach_of CloseApproach_new d = Returns t.
Proof.
  intros Hf. revert cad0 out0.
  induction rows as [|vs rows IH]; intros cad0 out0.
  - exists cad0, out0. cbn [map load_approaches_loop length].
    split; [done|]. split; [lia|auto].
  - cbn [map load_approaches_loop]. rewrite Hf. cbn [mbind outcome_bind].
    rewrite zip_dict_strings.
    set (d := foldl _ ∅ (zip names vs)).
    destruct (approach_of CloseApproach_new d) as [ca|e] eqn:Hca.
    + destruct (IH (cad0 ++ [ca]) out0) as (cad & out & Hloop & Hlen & Hel).
      exists cad, out. split; [done|]. split.
      { rewrite length_app in Hlen. cbn [length] in *. lia. }
      intros t Ht. destruct (Hel t Ht) as [Hin|(vs' & d' & ? & ? & ?)].
      * apply elem_of_app in Hin as [?|Heq%list_elem_of_singleton]; [auto|].
        subst t. right. exists vs, d. split; [by left|]. split; [|done].
        apply zip_dict_strings.
      * right. exists vs', d'. split; [by right|done].
    + destruct (IH cad0 (out0 ++ [e])) as (cad & out & Hloop & Hlen & Hel).
      exists cad, out. split; [done|]. split.
      { rewrite length_app in Hlen. cbn [length] in *. lia. }
      intros t Ht. destruct (Hel t Ht) as [Hin|(vs' & d' & ? & ? & ?)]; [auto|].
      right. exists vs', d'. split; [by right|done].
Qed.

(** X19.  When ['fields'] is a list of strings and ['data'] a list of lists,
    [load_approaches] does not raise, and every row gives one object or one
    printed exception: the objects returned and the messages printed add up
    to the number of rows. *)
Theorem load_approaches_accounting (items : list (string * json))
    (names : list string) (rows : list (list json)) :
  assoc "fields" items = Some (JList (map JStr names)) →
  assoc "data" items = Some (JList (map JList rows)) →
  ∃ cad out, load_approaches CloseApproach_new (JDict items) = (Returns cad, out) ∧
             (length cad + length out = length rows)%nat.
Proof.
  intros Hf Hd. unfold load_approaches, subscript. rewrite Hd.
  cbn [mbind outcome_bind iterate].
  destruct (load_approaches_loop_lists (JDict items) names rows [] [])
    as (cad & out & Hloop & Hlen & _).
  { unfold subscript. by rewrite Hf. }
  exists cad, out. split; [done|]. cbn [length] in Hlen. lia.
Qed.

(** X20.  When the field names are distinct strings, every object that
    [load_approaches] returns was constructed from a row of ['data'], with
    the keyword argument [des] set to the row's value at the position of
    ['des'] among the field names, and likewise for [cd], [dist] and
    [v_rel]: positions, not the order of the keyword arguments, decide. *)
Theorem loaded_approach_arguments (items : list (string * json))
    (names : list string) (rows : list (list json)) (cad : list T)
    (out : list exception) (t : T) :
  NoDup names →
  assoc "fields" items = Some (JList (map JStr names)) →
  assoc "data" items = Some (JList (map JList rows)) →
  load_approaches CloseApproach_new (JDict items) = (Returns cad, out) →
  t ∈ cad →
  ∃ vs args,
    vs ∈ rows ∧ CloseApproach_new args = Returns t ∧
    (∀ i, names !! i = Some "des" → vs !! i = Some (arg_des args)) ∧
    (∀ i, names !! i = Some "cd" → vs !! i = Some (arg_cd args)) ∧
    (∀ i, names !! i = Some "dist" → vs !! i = Some (arg_dist args)) ∧
    (∀ i, names !! i = Some "v_rel" → vs !! i = Some (arg_v_rel args)).
Proof.
  intros Hnd Hf Hd Hload Ht. unfold load_approaches, subscript in Hload.
  rewrite Hd in Hload. cbn [mbind outcome_bind iterate] in Hload.
  destruct (load_approaches_loop_lists (JDict items) names rows [] [])
    as (cad' & out' & Hloop & _ & Hel).
  { unfold subscript. by rewrite Hf. }
  rewrite Hloop in Hload. injection Hload as <- <-.
  destruct (Hel t Ht) as [Hin|(vs & d & Hvs & Hzip & Hnew)];
    [by apply elem_of_nil in Hin|].
  unfold approach_of in Hnew.
  destruct (approach_args_of d) as [args|] eqn:Hargs; [|done].
  cbn [mbind outcome_bind] in Hnew. exists vs, args.
  split; [done|]. split; [done|].
  unfold approach_args_of, getitem in Hargs.
  destruct (d !! "des") as [v1|] eqn:H1; [|done]. cbn [mbind outcome_bind] in Hargs.
  destruct (d !! "cd") as [v2|] eqn:H2; [|done]. cbn [mbind outcome_bind] in Hargs.
  destruct (d !! "dist") as [v3|] eqn:H3; [|done]. cbn [mbind outcome_bind] in Hargs.
  destruct (d !! "v_rel") as [v4|] eqn:H4; [|done]. cbn [mbind outcome_bind] in Hargs.
  injection Hargs as <-. cbn [arg_des arg_cd arg_dist arg_v_rel].
  assert (∀ k v i, d !! k = Some v → names !! i = Some k → vs !! i = Some v)
    as Hpos.
  { intros k v i Hk Hi.
    by rewrite <- (zip_dict_lookup names vs i k d Hnd Hi Hzip). }
  repeat split; intros i Hi; eapply Hpos; eauto.
Qed.

End load_approaches_facts.

(** * The further properties on the sample inputs *)

Lemma query_list_permutation_witness :
  to_list Sample.h1 (query Sample.db (PyList [Sample.always; Cases.linked])) =
  to_list Sample.h1 (query Sample.db (PyList [Cases.linked; Sample.always])).
Proof.
  apply (query_list_permutation Sample.h1 Sample.db
           [Sample.always; Cases.linked] [Cases.linked; Sample.always]).
  apply perm_swap.
Defined.

Lemma designation_hit_sound_witness :
  10 ∈ [10] ∧
  ∃ o', neo_objs Sample.h1 !! 10 = Some o' ∧ lower (designation o') = lower "433".
Proof.
  apply (designation_hit_sound [10] [20; 21] Sample.h0 "433" 10).
  reflexivity.
Defined.

Lemma name_hit_sound_witness :
  10 ∈ [10] ∧
  ∃ o' s, neo_objs Sample.h1 !! 10 = Some o' ∧ name o' = Some s ∧
          s ≠ EmptyString ∧ lower s = lower "EROS".
Proof.
  apply (name_hit_sound [10] [20; 21] Sample.h0 "EROS" 10).
  reflexivity.
Defined.

Lemma designation_lookup_never_misses_witness :
  ∃ O2 o2, get_neo_by_designation Sample.dbd (PyStr "2020 ab") = Ok (Some O2) ∧
           O2 ∈ [10; 11] ∧ neo_objs Sample.hd1 !! O2 = Some o2 ∧
           lower (designation o2) = lower "2020 ab".
Proof.
  apply (designation_lookup_never_misses [10; 11] [20] Sample.hd0 10
           (set_approaches [20] Sample.dup_a)).
  - compute_done.
  - reflexivity.
Defined.

Lemma matching_approach_linked_witness :
  20 ∈ approaches (set_approaches [20] Sample.dup_a) ∧
  ∃ O2 o2, neo (set_neo 11 Sample.ev3) = Some O2 ∧ O2 ∈ [10; 11] ∧
           neo_objs Sample.hd1 !! O2 = Some o2 ∧
           lower (designation o2) = lower (_designation (set_neo 11 Sample.ev3)) ∧
           20 ∈ approaches o2.
Proof.
  apply (matching_approach_linked [10; 11] [20] Sample.hd0 20 10
           (set_approaches [20] Sample.dup_a) (set_neo 11 Sample.ev3)).
  - compute_done.
  - compute_done.
  - reflexivity.
  - reflexivity.
  - reflexivity.
Defined.

Lemma approaches_disjoint_witness : 11 = 11.
Proof.
  apply (approaches_disjoint [10; 11] [20; 21; 22] Cases.hc0 22 11 11
           (set_approaches [22] Cases.ganymed) (set_approaches [22] Cases.ganymed)).
  - compute_done.
  - compute_done.
  - compute_done.
  - reflexivity.
  - reflexivity.
  - compute_done.
  - compute_done.
Defined.

Lemma loaded_neo_arguments_witness :
  ∃ row args d n p,
    row ∈ [Cases.row_eros; Cases.row_bad; Cases.row_unnamed] ∧
    Returns args = Returns Cases.args_eros ∧
    row !! "pdes" = Some (arg_pdes args) ∧
    row !! "name" = Some n ∧ row !! "pha" = Some p ∧
    row !! "diameter" = Some d ∧
    (∀ s, n = PyStr s → s ≠ EmptyString → arg_name args = PyStr s) ∧
    (n = PyNone ∨ n = PyStr EmptyString → arg_name args = PyNone) ∧
    (arg_pha args = false ↔ p = PyStr "N" ∨ p = PyStr EmptyString) ∧
    (∀ s, d = PyStr s → s ≠ EmptyString →
          Cases.sample_float s = Some (arg_diameter args)) ∧
    (d = PyNone ∨ d = PyStr EmptyString → arg_diameter args = nan).
Proof.
  apply (loaded_neo_arguments Cases.sample_float Returns
           [Cases.row_eros; Cases.row_bad; Cases.row_unnamed] Cases.args_eros).
  apply list_elem_of_In. vm_compute. left. reflexivity.
Defined.

Lemma load_neos_skips_bad_row_witness :
  ∃ e, load_neos Cases.sample_float Returns
         ([Cases.row_eros] ++ Cases.row_bad :: [Cases.row_unnamed]) =
       ([Cases.args_eros] ++ [Cases.args_unnamed], [] ++ e :: []).
Proof.
  apply (load_neos_skips_bad_row Cases.sample_float Returns
           [Cases.row_eros] [Cases.row_unnamed] Cases.row_bad).
  do 4 right. exists "wide". split; [reflexivity|]. split; [discriminate|reflexivity].
Defined.

Lemma zip_dict_positional_witness :
  ∃ d, zip_dict (JList (map JStr Cases.cad_names)) (JList Cases.cad_row1) = Returns d ∧
       d !! "dist" = Some (JStr "0.0963").
Proof.
  apply (zip_dict_positional Cases.cad_names Cases.cad_row1 3 "dist").
  - compute_done.
  - reflexivity.
Defined.

Lemma load_approaches_top_level_keys_witness :
  load_approaches (T := approach_args) Returns (JDict [("count", JStr "0")]) =
    (Raises (KeyError "data"), []) ∧
  load_approaches (T := approach_args) Returns (JDict [("data", JList [])]) =
    (Returns [], []) ∧
  load_approaches (T := approach_args) Returns
    (JDict [("data", JList [JList Cases.cad_row1])]) =
    (Raises (KeyError "fields"), []).
Proof.
  split; [|split].
  - apply (load_approaches_top_level_keys (T := approach_args) Returns
             [("count", JStr "0")]). reflexivity.
  - apply (load_approaches_top_level_keys (T := approach_args) Returns
             [("data", JList [])]). reflexivity.
  - destruct (load_approaches_top_level_keys (T := approach_args) Returns
                [("data", JList [JList Cases.cad_row1])]) as (_ & _ & Hfields).
    apply (Hfields (JList Cases.cad_row1) []); reflexivity.
Defined.

Lemma load_approaches_accounting_witness :
  ∃ cad out,
    load_approaches (T := approach_args) Returns (JDict Cases.cad_items) =
      (Returns cad, out) ∧
    (length cad + length out = 2)%nat.
Proof.
  apply (load_approaches_accounting (T := approach_args) Returns Cases.cad_items
           Cases.cad_names [Cases.cad_row1; Cases.cad_row2]); reflexivity.
Defined.

Lemma loaded_approach_arguments_witness :
  ∃ vs args,
    vs ∈ [Cases.cad_row1; Cases.cad_row2] ∧
    Returns args = Returns Cases.args_row1 ∧
    (∀ i, Cases.cad_names !! i = Some "des" → vs !! i = Some (arg_des args)) ∧
    (∀ i, Cases.cad_names !! i = Some "cd" → vs !! i = Some (arg_cd args)) ∧
    (∀ i, Cases.cad_names !! i = Some "dist" → vs !! i = Some (arg_dist args)) ∧
    (∀ i, Cases.cad_names !! i = Some "v_rel" → vs !! i = Some (arg_v_rel args)).
Proof.
  apply (loaded_approach_arguments (T := approach_args) Returns Cases.cad_items
           Cases.cad_names [Cases.cad_row1; Cases.cad_row2]
           [Cases.args_row1] [KeyError "dist"] Cases.args_row1).
  - compute_done.
  - reflexivity.
  - reflexivity.
  - reflexivity.
  - constructor.
Defined.
